(** * AsFem: the nonlinear solver set-up and the dense matrix class

    A shallow embedding of two pieces of the AsFem sources:

    - [NonlinearSolver::Init], the routine that wires a PETSc SNES object,
      its inner KSP/PC and its line search from a [NonlinearSolverBlock];
    - the class [MatrixXd], the dense row-major matrix used for the
      element-local calculations.

    C++ [double] is IEEE binary64, taken here as Rocq's primitive [float];
    C++ [int] is taken as [Z]. *)

From Stdlib Require Import ZArith Floats Lia.
From stdpp Require Import base decidable option list gmap strings.

Set Warnings "-inexact-float".
Local Open Scope Z_scope.

Abbreviation double := float (only parsing).

(** ** Outcomes of a call

    What a piece of C++ code can end in: it returns, it stops the process
    through [MessagePrinter], the standard library throws, or the
    behaviour is not defined by the language. *)

Inductive outcome (A : Type) : Type :=
| Normal (a : A)
| Fatal (diag : string)
| LengthError
| Undefined.
Arguments Normal {A} a.
Arguments Fatal {A} diag.
Arguments LengthError {A}.
Arguments Undefined {A}.

#[global] Instance outcome_ret : MRet outcome := @Normal.
#[global] Instance outcome_bind : MBind outcome := fun A B f x =>
  match x with
  | Normal a => f a
  | Fatal d => Fatal d
  | LengthError => LengthError
  | Undefined => Undefined
  end.

(** Modelled from the spec: [MessagePrinter::PrintErrorTxt] and
    [MessagePrinter::AsFem_Exit] live in Utils/MessagePrinter.h, which is
    not among the sources.  A fatal error is "a diagnostic print to the
    error stream followed by immediate process termination": the pair of
    calls ends the computation in [Fatal] with the text that was printed. *)
Definition PrintErrorTxt_then_AsFem_Exit {A : Type} (txt : string) : outcome A :=
  Fatal txt.

(** * The nonlinear solver *)

Module Solver.

(** Modelled from the spec: the enumeration [NonlinearSolverType] is
    declared in a header that is not among the sources.  The eight tags are
    the ones [Init] compares against; [OtherSolverType] stands for any
    other value the enumeration can hold. *)
Inductive NonlinearSolverType : Type :=
| NewtonRaphson
| SNESNewtonLs
| SNESNewtonTr
| SNESLBfgs
| SNESBroyden
| SNESBadBroyden
| SNESNewtonCG
| SNESNewtonGMRES
| OtherSolverType (tag : Z).

(** Modelled from the spec: the enumeration [LineSearchType], from the
    same missing header; [OtherLineSearchType] is any value that is none of
    the five tags [Init] compares against. *)
Inductive LineSearchType : Type :=
| LineSearchDefault
| LineSearchBackTrace
| LineSearchCP
| LineSearchL2
| LineSearchBasic
| OtherLineSearchType (tag : Z).

#[global] Instance NonlinearSolverType_eq_dec : EqDecision NonlinearSolverType.
Proof. solve_decision. Defined.
#[global] Instance LineSearchType_eq_dec : EqDecision LineSearchType.
Proof. solve_decision. Defined.

(** The PETSc names that [Init] passes. *)
Inductive SNESType : Type :=
  SNESNEWTONLS | SNESNEWTONTR | SNESQN | SNESNCG | SNESNGMRES.
Inductive SNESQNType : Type :=
  SNES_QN_LBFGS | SNES_QN_BROYDEN | SNES_QN_BADBROYDEN.
Inductive SNESLineSearchType : Type :=
  SNESLINESEARCHBASIC | SNESLINESEARCHBT | SNESLINESEARCHCP | SNESLINESEARCHL2.
Inductive PCType : Type := PCLU.
Inductive MPI_Comm : Type := PETSC_COMM_WORLD.

(** [PETSC_DEFAULT] is PETSc's constant -2. *)
Definition PETSC_DEFAULT : double := (-2)%float.

(** A PETSc handle, by where its value came from: [Stale] is whatever a
    member held before [Init] wrote to it, the others are the objects PETSc
    hands back through an out-parameter. *)
Inductive handle : Type :=
| Stale (bits : Z)
| NewSNES (comm : MPI_Comm)
| KSPOf (snes : handle)
| PCOf (ksp : handle)
| LineSearchOf (snes : handle).

#[global] Instance MPI_Comm_eq_dec : EqDecision MPI_Comm.
Proof. solve_decision. Defined.
#[global] Instance handle_eq_dec : EqDecision handle.
Proof. solve_decision. Defined.

(** One call into PETSc, with the arguments it was given. *)
Inductive petsc_call : Type :=
| SNESCreate (comm : MPI_Comm)
| SNESGetKSP (snes : handle)
| KSPSetTolerances (ksp : handle) (rtol abstol dtol : double) (maxits : Z)
| KSPGMRESSetRestart (ksp : handle) (restart : Z)
| KSPGetPC (ksp : handle)
| PCSetType (pc : handle) (t : PCType)
| KSPSetFromOptions (ksp : handle)
| SNESSetTolerances (snes : handle) (abstol rtol stol : double) (maxit maxf : Z)
| SNESSetType (snes : handle) (t : SNESType)
| SNESQNSetType (snes : handle) (t : SNESQNType)
| SNESGetLineSearch (snes : handle)
| SNESLineSearchSetType (ls : handle) (t : SNESLineSearchType)
| SNESLineSearchSetOrder (ls : handle) (order : Z).

Definition PetscErrorCode : Type := Z.

(** The input block, as [Init] reads it. *)
Module NonlinearSolverBlock.
Record t : Type := mk {
  _SolverType : NonlinearSolverType;
  _MaxIters : Z;
  _RAbsTol : double;
  _RRelTol : double;
  _STol : double;
  _LineSearchType : LineSearchType;
  _LineSearchOrder : Z
}.
End NonlinearSolverBlock.

(** The members of [NonlinearSolver] that [Init] touches. *)
Record NonlinearSolver : Type := mkNonlinearSolver {
  _SolverType : NonlinearSolverType;
  _MaxIters : Z;
  _RAbsTol : double;
  _RRelTol : double;
  _STol : double;
  _snes : handle;
  _ksp : handle;
  _pc : handle;
  _linesearch : handle
}.

Definition set_SolverType v (s : NonlinearSolver) :=
  mkNonlinearSolver v (_MaxIters s) (_RAbsTol s) (_RRelTol s) (_STol s)
    (_snes s) (_ksp s) (_pc s) (_linesearch s).
Definition set_MaxIters v (s : NonlinearSolver) :=
  mkNonlinearSolver (_SolverType s) v (_RAbsTol s) (_RRelTol s) (_STol s)
    (_snes s) (_ksp s) (_pc s) (_linesearch s).
Definition set_RAbsTol v (s : NonlinearSolver) :=
  mkNonlinearSolver (_SolverType s) (_MaxIters s) v (_RRelTol s) (_STol s)
    (_snes s) (_ksp s) (_pc s) (_linesearch s).
Definition set_RRelTol v (s : NonlinearSolver) :=
  mkNonlinearSolver (_SolverType s) (_MaxIters s) (_RAbsTol s) v (_STol s)
    (_snes s) (_ksp s) (_pc s) (_linesearch s).
Definition set_STol v (s : NonlinearSolver) :=
  mkNonlinearSolver (_SolverType s) (_MaxIters s) (_RAbsTol s) (_RRelTol s) v
    (_snes s) (_ksp s) (_pc s) (_linesearch s).
Definition set_snes v (s : NonlinearSolver) :=
  mkNonlinearSolver (_SolverType s) (_MaxIters s) (_RAbsTol s) (_RRelTol s)
    (_STol s) v (_ksp s) (_pc s) (_linesearch s).
Definition set_ksp v (s : NonlinearSolver) :=
  mkNonlinearSolver (_SolverType s) (_MaxIters s) (_RAbsTol s) (_RRelTol s)
    (_STol s) (_snes s) v (_pc s) (_linesearch s).
Definition set_pc v (s : NonlinearSolver) :=
  mkNonlinearSolver (_SolverType s) (_MaxIters s) (_RAbsTol s) (_RRelTol s)
    (_STol s) (_snes s) (_ksp s) v (_linesearch s).
Definition set_linesearch v (s : NonlinearSolver) :=
  mkNonlinearSolver (_SolverType s) (_MaxIters s) (_RAbsTol s) (_RRelTol s)
    (_STol s) (_snes s) (_ksp s) (_pc s) v.

(** ** The monad of [Init]

    A computation reads and writes the members of the solver and appends
    to the list of PETSc calls made so far. *)

Record world : Type := mkWorld {
  this : NonlinearSolver;
  calls : list petsc_call
}.

Definition petsc (A : Type) : Type := world -> A * world.

#[global] Instance petsc_ret : MRet petsc := fun A a w => (a, w).
#[global] Instance petsc_bind : MBind petsc := fun A B f m w =>
  let '(a, w') := m w in f a w'.

Definition member {A : Type} (f : NonlinearSolver -> A) : petsc A :=
  fun w => (f (this w), w).
Definition assign (upd : NonlinearSolver -> NonlinearSolver) : petsc unit :=
  fun w => (tt, mkWorld (upd (this w)) (calls w)).

Section Init.

(** The error code PETSc returns for a call, given the calls before it.
    [Init] never looks at it. *)
Variable petsc_returns : list petsc_call -> petsc_call -> PetscErrorCode.

Definition call (c : petsc_call) : petsc PetscErrorCode :=
  fun w => (petsc_returns (calls w) c, mkWorld (this w) (calls w ++ [c])).

(** [SNESLineSearchSetType(_linesearch,t)] *)
Definition LineSearchSetType (t : SNESLineSearchType) : petsc unit :=
  ls ← member _linesearch; call (SNESLineSearchSetType ls t);; mret tt.

(** [SNESLineSearchSetOrder(_linesearch,order)] *)
Definition LineSearchSetOrder (order : Z) : petsc unit :=
  ls ← member _linesearch; call (SNESLineSearchSetOrder ls order);; mret tt.

(** [SNESGetLineSearch(_snes,&_linesearch)] *)
Definition GetLineSearch : petsc unit :=
  snes ← member _snes;
  call (SNESGetLineSearch snes);;
  assign (set_linesearch (LineSearchOf snes)).

(** [SNESSetType(_snes,t)] *)
Definition SetType (t : SNESType) : petsc unit :=
  snes ← member _snes; call (SNESSetType snes t);; mret tt.

(** [SNESQNSetType(_snes,t)] *)
Definition QNSetType (t : SNESQNType) : petsc unit :=
  snes ← member _snes; call (SNESQNSetType snes t);; mret tt.

(** The chain of [if]/[else if] on the requested line-search type that
    every branch of the dispatch repeats; only the type chosen for
    [LineSearchDefault] differs from branch to branch. *)
Definition select_linesearch (dflt : SNESLineSearchType)
    (lst : LineSearchType) : petsc unit :=
  if bool_decide (lst = LineSearchDefault) then
    LineSearchSetType dflt
  else if bool_decide (lst = LineSearchBackTrace) then
    LineSearchSetType SNESLINESEARCHBT
  else if bool_decide (lst = LineSearchCP) then
    LineSearchSetType SNESLINESEARCHCP
  else if bool_decide (lst = LineSearchL2) then
    LineSearchSetType SNESLINESEARCHL2
  else if bool_decide (lst = LineSearchBasic) then
    LineSearchSetType SNESLINESEARCHBASIC
  else mret tt.

(** Lines 20-39 of the source: the SNES object, its KSP and PC, and the
    tolerances of both. *)
Definition setup : petsc unit :=
  call (SNESCreate PETSC_COMM_WORLD);;
  assign (set_snes (NewSNES PETSC_COMM_WORLD));;
  snes ← member _snes;
  call (SNESGetKSP snes);;
  assign (set_ksp (KSPOf snes));;
  ksp ← member _ksp;
  call (KSPSetTolerances ksp 1.0e-10%float 1.0e-10%float PETSC_DEFAULT 500000);;
  call (KSPGMRESSetRestart ksp 1200);;
  call (KSPGetPC ksp);;
  assign (set_pc (PCOf ksp));;
  pc ← member _pc;
  call (PCSetType pc PCLU);;
  call (KSPSetFromOptions ksp);;
  abstol ← member _RAbsTol;
  rtol ← member _RRelTol;
  stol ← member _STol;
  maxit ← member _MaxIters;
  call (SNESSetTolerances snes abstol rtol stol maxit (-1));;
  mret tt.

(** Lines 43-201: the dispatch on the solver type. *)
Definition dispatch (nonlinearsolverblock : NonlinearSolverBlock.t) : petsc unit :=
  let lst := NonlinearSolverBlock._LineSearchType nonlinearsolverblock in
  let order := NonlinearSolverBlock._LineSearchOrder nonlinearsolverblock in
  st ← member _SolverType;
  if bool_decide (st = NewtonRaphson) then
    SetType SNESNEWTONLS;;
    GetLineSearch;;
    select_linesearch SNESLINESEARCHBASIC lst;;
    LineSearchSetOrder order
  else if bool_decide (st = SNESNewtonLs) then
    SetType SNESNEWTONLS;;
    GetLineSearch;;
    LineSearchSetType SNESLINESEARCHL2;;
    select_linesearch SNESLINESEARCHBT lst;;
    LineSearchSetOrder order
  else if bool_decide (st = SNESNewtonTr) then
    SetType SNESNEWTONTR;;
    GetLineSearch;;
    select_linesearch SNESLINESEARCHBASIC lst
  else if bool_decide (st = SNESLBfgs) then
    SetType SNESQN;;
    QNSetType SNES_QN_LBFGS;;
    GetLineSearch;;
    select_linesearch SNESLINESEARCHCP lst
  else if bool_decide (st = SNESBroyden) then
    SetType SNESQN;;
    QNSetType SNES_QN_BROYDEN;;
    GetLineSearch;;
    select_linesearch SNESLINESEARCHBASIC lst
  else if bool_decide (st = SNESBadBroyden) then
    SetType SNESQN;;
    QNSetType SNES_QN_BADBROYDEN;;
    GetLineSearch;;
    select_linesearch SNESLINESEARCHL2 lst
  else if bool_decide (st = SNESNewtonCG) then
    SetType SNESNCG;;
    GetLineSearch;;
    select_linesearch SNESLINESEARCHCP lst
  else if bool_decide (st = SNESNewtonGMRES) then
    SetType SNESNGMRES;;
    GetLineSearch;;
    select_linesearch SNESLINESEARCHL2 lst
  else mret tt.

(** [void NonlinearSolver::Init(NonlinearSolverBlock &nonlinearsolverblock)] *)
Definition Init (nonlinearsolverblock : NonlinearSolverBlock.t) : petsc unit :=
  assign (set_SolverType (NonlinearSolverBlock._SolverType nonlinearsolverblock));;
  assign (set_MaxIters (NonlinearSolverBlock._MaxIters nonlinearsolverblock));;
  assign (set_RAbsTol (NonlinearSolverBlock._RAbsTol nonlinearsolverblock));;
  assign (set_RRelTol (NonlinearSolverBlock._RRelTol nonlinearsolverblock));;
  assign (set_STol (NonlinearSolverBlock._STol nonlinearsolverblock));;
  setup;;
  dispatch nonlinearsolverblock;;
  LineSearchSetOrder (NonlinearSolverBlock._LineSearchOrder nonlinearsolverblock).

(** Running [Init] on a solver object whose members hold [s], with no
    PETSc call made yet. *)
Definition run_Init (blk : NonlinearSolverBlock.t) (s : NonlinearSolver) : world :=
  snd (Init blk (mkWorld s [])).

End Init.

End Solver.

(** * The dense matrix *)

Module Matrix.

(** The private members of [MatrixXd]. *)
Record MatrixXd : Type := mkMatrixXd {
  _vals : list double;
  _M : Z;
  _N : Z;
  _MN : Z
}.

Definition INT_MIN : Z := -2147483648.
Definition INT_MAX : Z := 2147483647.

(** [a*b] on [int]: a product that leaves the range of [int] is a signed
    overflow, which C++ leaves undefined. *)
Definition int_mul (a b : Z) : outcome Z :=
  if bool_decide (INT_MIN <= a * b <= INT_MAX) then Normal (a * b) else Undefined.

(** ** [std::vector<double>] *)

(** [v.resize(n,val)] with [n] an [int]: the count is converted to
    [size_t], so a negative [n] asks for more than [max_size()] elements
    and [std::length_error] is thrown.  Otherwise the first [n] elements
    are kept and the vector is padded with copies of [val] up to [n]. *)
Definition vector_resize (v : list double) (n : Z) (val : double)
    : outcome (list double) :=
  if bool_decide (n < 0) then LengthError
  else Normal (take (Z.to_nat n) v ++ replicate (Z.to_nat n - length v) val).

(** [v[k]] read: no bounds check, undefined outside the vector. *)
Definition vector_get (v : list double) (k : Z) : outcome double :=
  if bool_decide (0 <= k) then
    match v !! Z.to_nat k with
    | Some x => Normal x
    | None => Undefined
    end
  else Undefined.

(** [v[k]=x]: no bounds check, undefined outside the vector. *)
Definition vector_set (v : list double) (k : Z) (x : double)
    : outcome (list double) :=
  if bool_decide (0 <= k < Z.of_nat (length v)) then
    Normal (<[Z.to_nat k := x]> v)
  else Undefined.

(** [fill(v.begin(),v.end(),val)] *)
Definition vector_fill (v : list double) (val : double) : list double :=
  replicate (length v) val.

(** ** Loops *)

Fixpoint for_steps {S : Type} (n : nat) (i : Z) (body : Z -> S -> outcome S)
    (s : S) : outcome S :=
  match n with
  | O => Normal s
  | Datatypes.S n' => s' ← body i s; for_steps n' (i + 1) body s'
  end.

(** [for(int i=lo;i<hi;++i) body] *)
Definition for_lt {S : Type} (lo hi : Z) (body : Z -> S -> outcome S) (s : S)
    : outcome S :=
  for_steps (Z.to_nat (hi - lo)) lo body s.

(** [for(int i=lo;i<=hi;i++) body].  The counter is an [int]: after the
    pass with [i = INT_MAX] the increment [i++] is a signed overflow, so a
    loop that reaches that pass does not end in a defined state. *)
Definition for_le {S : Type} (lo hi : Z) (body : Z -> S -> outcome S) (s : S)
    : outcome S :=
  s' ← for_lt lo (hi + 1) body s;
  if bool_decide (lo <= hi /\ INT_MAX <= hi) then Undefined else Normal s'.

(** ** Methods

    A member function is run on the receiver and yields its result
    together with the receiver as the call leaves it. *)
Definition method (R : Type) : Type := MatrixXd -> outcome (R * MatrixXd).

Definition set_vals (v : list double) (A : MatrixXd) : MatrixXd :=
  mkMatrixXd v (_M A) (_N A) (_MN A).

(** Modelled from the spec: the constructors are only declared in the
    sources.  [MatrixXd(m,n,val)] is "created with explicit dimensions
    (optionally zero-filled or value-filled)", with a buffer of [m*n]
    elements; the buffer is obtained as [Resize] obtains it, from an empty
    vector. *)
Definition MatrixXd_mnv (m n : Z) (val : double) : outcome MatrixXd :=
  mn ← int_mul m n;
  vals ← vector_resize [] mn val;
  mret (mkMatrixXd vals m n mn).

(** Modelled from the spec: [MatrixXd(m,n)], the zero-filled case. *)
Definition MatrixXd_mn (m n : Z) : outcome MatrixXd :=
  MatrixXd_mnv m n 0%float.

(** Modelled from the spec: [MatrixXd()], the freshly constructed matrix
    that assignment recognises by [_M==0&&_N==0]. *)
Definition MatrixXd_default : MatrixXd := mkMatrixXd [] 0 0 0.

(** [void Resize(const int &m,const int &n,const double &val)] *)
Definition Resize_val (m n : Z) (val : double) : method unit := fun this =>
  mn ← int_mul m n;
  vals ← vector_resize (_vals this) mn val;
  mret (tt, mkMatrixXd vals m n mn).

(** [void Resize(const int &m,const int &n)] *)
Definition Resize (m n : Z) : method unit := fun this =>
  mn ← int_mul m n;
  vals ← vector_resize (_vals this) mn 0%float;
  mret (tt, mkMatrixXd vals m n mn).

Definition GetM : method Z := fun this => mret (_M this, this).
Definition GetN : method Z := fun this => mret (_N this, this).

(** [void Clean(){_vals.clear();}] *)
Definition Clean : method unit := fun this => mret (tt, set_vals [] this).

(** The value of [A(i,j)]: [_vals[(i-1)*_N+j-1]]. *)
Definition elem (A : MatrixXd) (i j : Z) : outcome double :=
  vector_get (_vals A) ((i - 1) * _N A + j - 1).

(** [A(i,j)=x], through the reference the non-const [operator()] returns. *)
Definition elem_store (A : MatrixXd) (i j : Z) (x : double) : outcome MatrixXd :=
  vals ← vector_set (_vals A) ((i - 1) * _N A + j - 1) x;
  mret (set_vals vals A).

(** [double operator()(i,j) const] *)
Definition op_call (i j : Z) : method double := fun this =>
  x ← elem this i j; mret (x, this).

(** [double& operator()(i,j)] followed by a store into the reference. *)
Definition op_call_store (i j : Z) (x : double) : method unit := fun this =>
  this' ← elem_store this i j x; mret (tt, this').

(** [double operator[](i) const] *)
Definition op_index (i : Z) : method double := fun this =>
  x ← vector_get (_vals this) (i - 1); mret (x, this).

(** [double& operator[](i)] followed by a store into the reference. *)
Definition op_index_store (i : Z) (x : double) : method unit := fun this =>
  vals ← vector_set (_vals this) (i - 1) x; mret (tt, set_vals vals this).

(** [for(int i=0;i<mn;++i) dst[i]=f(dst,i);]: the right-hand side may read
    the buffer that is being written. *)
Definition fill_loop (mn : Z) (f : list double -> Z -> outcome double)
    (dst : list double) : outcome (list double) :=
  for_lt 0 mn (fun i dst => x ← f dst i; vector_set dst i x) dst.

(** [MatrixXd& operator=(const double &val)] *)
Definition op_assign_scalar (val : double) : method unit := fun this =>
  mret (tt, set_vals (vector_fill (_vals this) val) this).

(** [MatrixXd& operator=(const MatrixXd &a)].  When [a] is the receiver
    itself both branches that return leave the same members as here. *)
Definition op_assign (a : MatrixXd) : method unit := fun this =>
  if bool_decide (_M this = 0) && bool_decide (_N this = 0) then
    let M := _M a in
    let N := _N a in
    MN ← int_mul M N;
    vals ← vector_resize (_vals this) MN 0%float;
    vals ← fill_loop MN (fun _ i => vector_get (_vals a) i) vals;
    mret (tt, mkMatrixXd vals M N MN)
  else
    if bool_decide (_M this = _M a) && bool_decide (_N this = _N a) then
      vals ← fill_loop (_MN this) (fun _ i => vector_get (_vals a) i) (_vals this);
      mret (tt, set_vals vals this)
    else
      PrintErrorTxt_then_AsFem_Exit
        "a=b cant be applied for two matrix with different size".

(** ** Arithmetic *)

(** The loop [for(int i=0;i<_MN;++i) temp._vals[i]=_vals[i] (op) val;] *)
Definition scalar_loop (op : double -> double -> double) (this : MatrixXd)
    (val : double) (dst : list double) : outcome (list double) :=
  fill_loop (_MN this)
    (fun _ i => x ← vector_get (_vals this) i; mret (op x val)) dst.

(** The loop [for(int i=0;i<_MN;++i) temp._vals[i]=_vals[i] (op) a._vals[i];] *)
Definition matrix_loop (op : double -> double -> double) (this a : MatrixXd)
    (dst : list double) : outcome (list double) :=
  fill_loop (_MN this)
    (fun _ i => x ← vector_get (_vals this) i;
                y ← vector_get (_vals a) i;
                mret (op x y)) dst.

(** The in-place loops, [_vals[i]=_vals[i] (op) val] and
    [_vals[i]=_vals[i] (op) a._vals[i]]: the left operand is read from the
    buffer as it stands. *)
Definition scalar_loop_inplace (op : double -> double -> double)
    (this : MatrixXd) (val : double) : outcome (list double) :=
  fill_loop (_MN this)
    (fun vals i => x ← vector_get vals i; mret (op x val)) (_vals this).

Definition matrix_loop_inplace (op : double -> double -> double)
    (this a : MatrixXd) : outcome (list double) :=
  fill_loop (_MN this)
    (fun vals i => x ← vector_get vals i;
                   y ← vector_get (_vals a) i;
                   mret (op x y)) (_vals this).

(** The shape of the four scalar operators that return a new matrix. *)
Definition scalar_op (op : double -> double -> double) (val : double)
    : method MatrixXd := fun this =>
  temp ← MatrixXd_mn (_M this) (_N this);
  vals ← scalar_loop op this val (_vals temp);
  mret (set_vals vals temp, this).

(** The shape of the scalar compound assignments. *)
Definition scalar_op_assign (op : double -> double -> double) (val : double)
    : method unit := fun this =>
  vals ← scalar_loop_inplace op this val;
  mret (tt, set_vals vals this).

(** The shape of [operator+] and [operator-] between matrices. *)
Definition matrix_op (op : double -> double -> double) (diag : string)
    (a : MatrixXd) : method MatrixXd := fun this =>
  temp ← MatrixXd_mn (_M this) (_N this);
  if bool_decide (_M this = _M a) && bool_decide (_N this = _N a) then
    vals ← matrix_loop op this a (_vals temp);
    mret (set_vals vals temp, this)
  else PrintErrorTxt_then_AsFem_Exit diag.

(** The shape of [operator+=] and [operator-=] between matrices. *)
Definition matrix_op_assign (op : double -> double -> double) (diag : string)
    (a : MatrixXd) : method unit := fun this =>
  temp ← MatrixXd_mn (_M this) (_N this);
  if bool_decide (_M this = _M a) && bool_decide (_N this = _N a) then
    vals ← matrix_loop_inplace op this a;
    mret (tt, set_vals vals this)
  else PrintErrorTxt_then_AsFem_Exit diag.

(** [MatrixXd operator+(const double &val)const] *)
Definition op_add_scalar : double -> method MatrixXd := scalar_op PrimFloat.add.
(** [MatrixXd operator+(const MatrixXd &a)const] *)
Definition op_add : MatrixXd -> method MatrixXd :=
  matrix_op PrimFloat.add "a+b cant be applied for two matrix with different size".
(** [MatrixXd& operator+=(const double &val)] *)
Definition op_add_assign_scalar : double -> method unit :=
  scalar_op_assign PrimFloat.add.
(** [MatrixXd& operator+=(const MatrixXd &a)] *)
Definition op_add_assign : MatrixXd -> method unit :=
  matrix_op_assign PrimFloat.add
    "a+b cant be applied for two matrix with different size".
(** [MatrixXd operator-(const double &val)const] *)
Definition op_sub_scalar : double -> method MatrixXd := scalar_op PrimFloat.sub.
(** [MatrixXd operator-(const MatrixXd &a)const] *)
Definition op_sub : MatrixXd -> method MatrixXd :=
  matrix_op PrimFloat.sub "a-b cant be applied for two matrix with different size".
(** [MatrixXd& operator-=(const double &val)] *)
Definition op_sub_assign_scalar : double -> method unit :=
  scalar_op_assign PrimFloat.sub.
(** [MatrixXd& operator-=(const MatrixXd &a)] *)
Definition op_sub_assign : MatrixXd -> method unit :=
  matrix_op_assign PrimFloat.sub
    "a-b cant be applied for two matrix with different size".
(** [MatrixXd operator*(const double &val)const] *)
Definition op_mul_scalar : double -> method MatrixXd := scalar_op PrimFloat.mul.
(** [MatrixXd& operator*=(const double &val)] *)
Definition op_mul_assign_scalar : double -> method unit :=
  scalar_op_assign PrimFloat.mul.
(** [MatrixXd operator/(const double &val)const] *)
Definition op_div_scalar : double -> method MatrixXd := scalar_op PrimFloat.div.
(** [MatrixXd& operator/=(const double &val)] *)
Definition op_div_assign_scalar : double -> method unit :=
  scalar_op_assign PrimFloat.div.

Section MulAdd.

(** How the build evaluates [t + x*y] in the statement that adds the
    product of two elements to [temp(i,j)]: the compiler may round the
    product and then the sum, or contract the two into one fused
    multiply-add, which rounds once. *)
Variable muladd : double -> double -> double -> double.

(** [MatrixXd operator*(const MatrixXd &a)const] *)
Definition op_mul (a : MatrixXd) : method MatrixXd := fun this =>
  temp ← MatrixXd_mn (_M this) (_N a);
  if bool_decide (_N this ≠ _M a) then
    PrintErrorTxt_then_AsFem_Exit
      "A*B should be applied for A matrix has the same cols as the rows of B matrix!"
  else
    temp ← for_le 1 (_M this) (fun i temp =>
      for_le 1 (_N a) (fun j temp =>
        temp ← elem_store temp i j 0%float;
        for_le 1 (_M a) (fun k temp =>
          t ← elem temp i j;
          x ← elem this i k;
          y ← elem a k j;
          elem_store temp i j (muladd t x y)) temp) temp) temp;
    mret (temp, this).

End MulAdd.

(** The evaluation of [t + x*y] without contraction. *)
Definition separately_rounded (t x y : double) : double := (t + x * y)%float.

(** [void setZero()] *)
Definition setZero : method unit := fun this =>
  mret (tt, set_vals (vector_fill (_vals this) 0%float) this).

(** ** Transposition *)

(** [MatrixXd Transpose() const] *)
Definition Transpose : method MatrixXd := fun this =>
  temp ← MatrixXd_mn (_N this) (_M this);
  temp ← for_le 1 (_M this) (fun i temp =>
    for_le 1 (_N this) (fun j temp =>
      x ← elem this i j;
      elem_store temp j i x) temp) temp;
  mret (temp, this).

(** [void Transposed()] *)
Definition Transposed : method unit := fun this =>
  '(temp, this) ← Transpose this;
  '(_, this) ← Resize (_M temp) (_N temp) this;
  op_assign temp this.

(** ** Inverse and determinant, through Eigen *)

(** An [Eigen::MatrixXd]: its size and the coefficients written so far
    (the constructor leaves them uninitialised). *)
Record EigenMatrixXd : Type := mkEigen {
  rows : Z;
  cols : Z;
  coeffs : gmap (Z * Z) double
}.

(** [Eigen::MatrixXd Mat(r,c)] *)
Definition Eigen_MatrixXd (r c : Z) : EigenMatrixXd := mkEigen r c ∅.

(** [Mat.coeffRef(r,c)=x] *)
Definition coeffRef_store (E : EigenMatrixXd) (r c : Z) (x : double)
    : outcome EigenMatrixXd :=
  if bool_decide (0 <= r < rows E) && bool_decide (0 <= c < cols E) then
    Normal (mkEigen (rows E) (cols E) (<[(r, c) := x]> (coeffs E)))
  else Undefined.

(** [Mat.coeff(r,c)] *)
Definition coeff (E : EigenMatrixXd) (r c : Z) : outcome double :=
  match coeffs E !! (r, c) with
  | Some x => Normal x
  | None => Undefined
  end.

(** The loop that copies the receiver into an Eigen matrix, shared by
    [Inverse] and [Det]. *)
Definition to_Eigen (this : MatrixXd) (Mat : EigenMatrixXd) : outcome EigenMatrixXd :=
  for_le 1 (_M this) (fun i Mat =>
    for_le 1 (_N this) (fun j Mat =>
      x ← elem this i j;
      coeffRef_store Mat (i - 1) (j - 1) x) Mat) Mat.

Section Eigen.

(** What Eigen's [inverse()] and [determinant()] do with a matrix is
    Eigen's business; the class only hands the matrix over. *)
Variable eigen_inverse : EigenMatrixXd -> outcome EigenMatrixXd.
Variable eigen_determinant : EigenMatrixXd -> outcome double.

(** [MatrixXd Inverse()const] *)
Definition Inverse : method MatrixXd := fun this =>
  if bool_decide (_M this ≠ _N this) then
    PrintErrorTxt_then_AsFem_Exit
      "the inverse operation only works for square matrix"
  else
    let Mat := Eigen_MatrixXd (_M this) (_N this) in
    let MatInv := Eigen_MatrixXd (_M this) (_N this) in
    temp ← MatrixXd_mn (_M this) (_N this);
    Mat ← to_Eigen this Mat;
    MatInv ← eigen_inverse Mat;
    temp ← for_le 1 (_M this) (fun i temp =>
      for_le 1 (_N this) (fun j temp =>
        x ← coeff MatInv (i - 1) (j - 1);
        elem_store temp i j x) temp) temp;
    mret (temp, this).

(** [double Det()const] *)
Definition Det : method double := fun this =>
  let Mat := Eigen_MatrixXd (_M this) (_N this) in
  Mat ← to_Eigen this Mat;
  d ← eigen_determinant Mat;
  mret (d, this).

End Eigen.

End Matrix.

Module SolverSpec.
Import Solver.

(** The line-search type in force on the handle [ls] after the calls
    [tr]: the one given by the last [SNESLineSearchSetType] on [ls]. *)
Definition linesearch_type_on (ls : handle) (tr : list petsc_call)
    : option SNESLineSearchType :=
  fold_left (fun acc c =>
    match c with
    | SNESLineSearchSetType h t => if bool_decide (h = ls) then Some t else acc
    | _ => acc
    end) tr None.

(** The line-search strategy [Init] leaves configured: the type in force
    on the solver's own [_linesearch]. *)
Definition configured_linesearch (w : world) : option SNESLineSearchType :=
  linesearch_type_on (_linesearch (this w)) (calls w).

Definition is_SetOrder (c : petsc_call) : bool :=
  match c with SNESLineSearchSetOrder _ _ => true | _ => false end.
Definition is_GetLineSearch (c : petsc_call) : bool :=
  match c with SNESGetLineSearch _ => true | _ => false end.

(** How many times the line-search order is applied in [tr]. *)
Definition count_SetOrder (tr : list petsc_call) : nat :=
  length (filter (fun c => is_SetOrder c = true) tr).

(** The eight solver types [Init] has a branch for. *)
Definition recognized (st : NonlinearSolverType) : bool :=
  match st with OtherSolverType _ => false | _ => true end.

(** The branches of the dispatch that apply the line-search order
    themselves. *)
Definition accepts_order (st : NonlinearSolverType) : bool :=
  match st with NewtonRaphson | SNESNewtonLs => true | _ => false end.

(** The table of section 4.2 of the specification, row by row. *)
Definition spec_default_linesearch (st : NonlinearSolverType)
    : option SNESLineSearchType :=
  match st with
  | NewtonRaphson => Some SNESLINESEARCHBASIC
  | SNESNewtonLs => Some SNESLINESEARCHBT
  | SNESNewtonTr => Some SNESLINESEARCHBASIC
  | SNESLBfgs => Some SNESLINESEARCHCP
  | SNESBroyden => Some SNESLINESEARCHBASIC
  | SNESBadBroyden => Some SNESLINESEARCHL2
  | SNESNewtonCG => Some SNESLINESEARCHCP
  | SNESNewtonGMRES => Some SNESLINESEARCHL2
  | OtherSolverType _ => None
  end.

(** The 1:1 mapping of the explicit line-search tags, as the
    specification words it. *)
Definition spec_explicit_linesearch (lst : LineSearchType)
    : option SNESLineSearchType :=
  match lst with
  | LineSearchBackTrace => Some SNESLINESEARCHBT
  | LineSearchCP => Some SNESLINESEARCHCP
  | LineSearchL2 => Some SNESLINESEARCHL2
  | LineSearchBasic => Some SNESLINESEARCHBASIC
  | _ => None
  end.

(** The calls of lines 20-39, for a solver whose tolerances are those of
    the block [blk]. *)
Definition setup_calls (blk : NonlinearSolverBlock.t) : list petsc_call :=
  let snes := NewSNES PETSC_COMM_WORLD in
  [ SNESCreate PETSC_COMM_WORLD;
    SNESGetKSP snes;
    KSPSetTolerances (KSPOf snes) 1.0e-10%float 1.0e-10%float PETSC_DEFAULT 500000;
    KSPGMRESSetRestart (KSPOf snes) 1200;
    KSPGetPC (KSPOf snes);
    PCSetType (PCOf (KSPOf snes)) PCLU;
    KSPSetFromOptions (KSPOf snes);
    SNESSetTolerances snes
      (NonlinearSolverBlock._RAbsTol blk) (NonlinearSolverBlock._RRelTol blk)
      (NonlinearSolverBlock._STol blk) (NonlinearSolverBlock._MaxIters blk) (-1) ].

(** Calls that act on the line search or choose the outer method: the
    only ones the dispatch and the trailing statement make. *)
Definition is_dispatch_call (c : petsc_call) : bool :=
  match c with
  | SNESSetType _ _ | SNESQNSetType _ _ | SNESGetLineSearch _
  | SNESLineSearchSetType _ _ | SNESLineSearchSetOrder _ _ => true
  | _ => false
  end.

(** The outer method in force on the solver [snes] after the calls [tr]:
    the type of the last [SNESSetType] and the quasi-Newton variant of the
    last [SNESQNSetType], where there was one. *)
Definition snes_type_on (snes : handle) (tr : list petsc_call) : option SNESType :=
  fold_left (fun acc c =>
    match c with
    | SNESSetType h t => if bool_decide (h = snes) then Some t else acc
    | _ => acc
    end) tr None.

Definition qn_type_on (snes : handle) (tr : list petsc_call) : option SNESQNType :=
  fold_left (fun acc c =>
    match c with
    | SNESQNSetType h t => if bool_decide (h = snes) then Some t else acc
    | _ => acc
    end) tr None.

Definition configured_method (w : world) : option SNESType * option SNESQNType :=
  (snes_type_on (_snes (this w)) (calls w), qn_type_on (_snes (this w)) (calls w)).

(** The outer method each branch of the dispatch asks for. *)
Definition branch_method (st : NonlinearSolverType)
    : option SNESType * option SNESQNType :=
  match st with
  | NewtonRaphson => (Some SNESNEWTONLS, None)
  | SNESNewtonLs => (Some SNESNEWTONLS, None)
  | SNESNewtonTr => (Some SNESNEWTONTR, None)
  | SNESLBfgs => (Some SNESQN, Some SNES_QN_LBFGS)
  | SNESBroyden => (Some SNESQN, Some SNES_QN_BROYDEN)
  | SNESBadBroyden => (Some SNESQN, Some SNES_QN_BADBROYDEN)
  | SNESNewtonCG => (Some SNESNCG, None)
  | SNESNewtonGMRES => (Some SNESNGMRES, None)
  | OtherSolverType _ => (None, None)
  end.

(** The five line-search tags the chains of [Init] test for. *)
Definition known_linesearch (lst : LineSearchType) : bool :=
  match lst with OtherLineSearchType _ => false | _ => true end.

(** The PETSc object a call is made on. *)
Definition call_handle (c : petsc_call) : option handle :=
  match c with
  | SNESCreate _ => None
  | SNESGetKSP h | KSPSetTolerances h _ _ _ _ | KSPGMRESSetRestart h _
  | KSPGetPC h | PCSetType h _ | KSPSetFromOptions h
  | SNESSetTolerances h _ _ _ _ _ | SNESSetType h _ | SNESQNSetType h _
  | SNESGetLineSearch h | SNESLineSearchSetType h _
  | SNESLineSearchSetOrder h _ => Some h
  end.

(** A handle that was not obtained from PETSc by this [Init], or that was
    derived from such a handle. *)
Fixpoint stale (h : handle) : bool :=
  match h with
  | Stale _ => true
  | NewSNES _ => false
  | KSPOf h' | PCOf h' | LineSearchOf h' => stale h'
  end.

Definition on_stale_handle (c : petsc_call) : bool :=
  match call_handle c with Some h => stale h | None => false end.

(** How many times a line-search type is set in [tr]. *)
Definition is_LineSearchSetType (c : petsc_call) : bool :=
  match c with SNESLineSearchSetType _ _ => true | _ => false end.
Definition count_LineSearchSetType (tr : list petsc_call) : nat :=
  length (filter (fun c => is_LineSearchSetType c = true) tr).

(** The line-search strategy in force on the solver itself: the type
    last set on the line search of the SNES object that [_snes] holds,
    whatever [_linesearch] holds. *)
Definition solver_linesearch_type (w : world) : option SNESLineSearchType :=
  linesearch_type_on (LineSearchOf (_snes (this w))) (calls w).

(** [SNESGetLineSearch] was called on the SNES object that [_snes]
    holds. *)
Definition linesearch_obtained (w : world) : bool :=
  existsb (fun c => match c with
                    | SNESGetLineSearch h => bool_decide (h = _snes (this w))
                    | _ => false
                    end) (calls w).







(** Sample inputs: a PETSc that reports no error, a solver object as it
    may be before [Init], and a block with the usual tolerances. *)
Definition no_error : list petsc_call -> petsc_call -> PetscErrorCode :=
  fun _ _ => 0.
Definition some_solver : NonlinearSolver :=
  mkNonlinearSolver (OtherSolverType 0) 0 0%float 0%float 0%float
    (Stale 1) (Stale 2) (Stale 3) (Stale 4).
Definition some_block (st : NonlinearSolverType) (lst : LineSearchType)
    : NonlinearSolverBlock.t :=
  NonlinearSolverBlock.mk st 25 1.0e-8%float 1.0e-9%float 1.0e-7%float lst 3.

End SolverSpec.

Module MatrixSpec.
Import Matrix.

(** The invariant the data model states: the buffer holds [M*N] values. *)
Definition buffer_matches_shape (A : MatrixXd) : Prop :=
  Z.of_nat (length (_vals A)) = _M A * _N A.

(** A matrix as the constructors and [Resize] leave it: non-negative
    dimensions, a product that fits an [int], [_MN] equal to it and a
    buffer of that length. *)
Definition well_formed (A : MatrixXd) : Prop :=
  0 <= _M A /\ 0 <= _N A /\ _M A * _N A <= INT_MAX /\
  _MN A = _M A * _N A /\ buffer_matches_shape A.

(** Both dimensions are below [INT_MAX], so that the [int] counters of
    the loops [for(int i=1;i<=_M;i++)] and [for(int j=1;j<=_N;j++)] can be
    incremented past them. *)
Definition countable (A : MatrixXd) : Prop :=
  _M A < INT_MAX /\ _N A < INT_MAX.

(** The offset of element [(i,j)] in the row-major buffer of a matrix
    with [N] columns. *)
Definition offset (N i j : Z) : Z := (i - 1) * N + (j - 1).

(** A call that returns and leaves a well-formed receiver. *)
Definition leaves_well_formed {R : Type} (o : outcome (R * MatrixXd)) : Prop :=
  exists r A', o = Normal (r, A') /\ well_formed A'.

(** A call on [this] that returns a well-formed matrix of shape [(m,n)]
    and leaves the receiver as it was. *)
Definition yields_well_formed (m n : Z) (this : MatrixXd)
    (o : outcome (MatrixXd * MatrixXd)) : Prop :=
  exists T, o = Normal (T, this) /\ well_formed T /\ _M T = m /\ _N T = n.

(** What the two loops of [Transpose] have written once the rows before
    [i], and the columns before [j] of row [i], have been handled. *)
Definition transposed_upto (A : MatrixXd) (i j : Z) (T : MatrixXd) : Prop :=
  _M T = _N A /\ _N T = _M A /\ _MN T = _N A * _M A /\
  Z.of_nat (length (_vals T)) = _N A * _M A /\
  forall i' j', 1 <= i' <= _M A -> 1 <= j' <= _N A ->
    i' < i \/ (i' = i /\ j' < j) ->
    _vals T !! Z.to_nat (offset (_M A) j' i') =
    _vals A !! Z.to_nat (offset (_N A) i' j').

(** [T] has the shape [(m,n)], the total length [mn] and a buffer of
    [m*n] elements. *)
Definition has_shape (m n mn : Z) (T : MatrixXd) : Prop :=
  _M T = m /\ _N T = n /\ _MN T = mn /\
  Z.of_nat (length (_vals T)) = m * n.

(** The element at position [(i,j)] of [A], and 0.0 where the buffer has
    none. *)
Definition entry (A : MatrixXd) (i j : Z) : double :=
  default 0%float (_vals A !! Z.to_nat (offset (_N A) i j)).

(** The sum the innermost loop of [operator*] has accumulated for
    position [(i,j)] after [n] steps, in the order the loop adds and with
    the multiply-add of the build. *)
Fixpoint dot_upto (muladd : double -> double -> double -> double)
    (A a : MatrixXd) (i j : Z) (n : nat) : double :=
  match n with
  | O => 0%float
  | Datatypes.S n' =>
      muladd (dot_upto muladd A a i j n')
             (entry A i (Z.of_nat (Datatypes.S n')))
             (entry a (Z.of_nat (Datatypes.S n')) j)
  end.

(** The position [(i',j')] comes before [(i,j)] in the order in which
    the nested loops over rows and columns visit the positions. *)
Definition visited_before (i j i' j' : Z) : Prop :=
  i' < i \/ (i' = i /\ j' < j).

(** What the loops of [operator*] have finished when they reach position
    [(i,j)]: the result has its shape, and every position visited before
    holds its complete sum. *)
Definition product_upto (muladd : double -> double -> double -> double)
    (A a : MatrixXd) (i j : Z) (T : MatrixXd) : Prop :=
  has_shape (_M A) (_N a) (_M A * _N a) T /\
  forall i' j', 1 <= i' <= _M A -> 1 <= j' <= _N a ->
    visited_before i j i' j' ->
    _vals T !! Z.to_nat (offset (_N a) i' j') =
    Some (dot_upto muladd A a i' j' (Z.to_nat (_N A))).

(** What the loops of [to_Eigen] have written when they reach position
    [(i,j)]: coefficient [(i'-1,j'-1)] for every position [(i',j')]
    visited before, and nothing else. *)
Definition copied_upto (A : MatrixXd) (i j : Z) (E : EigenMatrixXd) : Prop :=
  rows E = _M A /\ cols E = _N A /\
  forall r c,
    coeffs E !! (r, c) =
    if bool_decide (0 <= r /\ 0 <= c < _N A /\
                    visited_before i j (r + 1) (c + 1))
    then Some (entry A (r + 1) (c + 1)) else None.

(** What the loops that copy Eigen's answer [R] back have written when
    they reach position [(i,j)]. *)
Definition filled_upto (R : EigenMatrixXd) (m n i j : Z) (T : MatrixXd) : Prop :=
  has_shape m n (m * n) T /\
  forall i' j', 1 <= i' <= m -> 1 <= j' <= n ->
    visited_before i j i' j' ->
    _vals T !! Z.to_nat (offset n i' j') = coeffs R !! (i' - 1, j' - 1).

(** Whether a call returned to its caller. *)
Definition returned {R : Type} (o : outcome R) : bool :=
  match o with Normal _ => true | _ => false end.

(** Sample inputs. *)
Definition tall_empty : MatrixXd := mkMatrixXd [] INT_MAX 0 0.
Definition A22 : MatrixXd :=
  mkMatrixXd [1%float; 2%float; 3%float; 4%float] 2 2 4.
Definition A11 : MatrixXd := mkMatrixXd [5%float] 1 1 1.
Definition A12 : MatrixXd := mkMatrixXd [1%float; 2%float] 1 2 2.
Definition A23 : MatrixXd :=
  mkMatrixXd [1%float; 2%float; 3%float; 4%float; 5%float; 6%float] 2 3 6.
Definition B23 : MatrixXd :=
  mkMatrixXd [0%float; 0%float; 0%float; 0%float; 0%float; 0%float] 2 3 6.
Definition A32 : MatrixXd :=
  mkMatrixXd [1%float; 4%float; 2%float; 5%float; 3%float; 6%float] 3 2 6.

(** An Eigen that returns its argument as the inverse and 0 as the
    determinant, to run [Inverse] and [Det] on concrete inputs. *)
Definition sample_inverse (E : EigenMatrixXd) : outcome EigenMatrixXd := Normal E.
Definition sample_determinant (E : EigenMatrixXd) : outcome double :=
  Normal 0%float.

End MatrixSpec.

(** * Facts about [NonlinearSolver::Init] *)

Module SolverFacts.
Import Solver SolverSpec.

Section WithPetsc.

Variable petsc_returns : list petsc_call -> petsc_call -> PetscErrorCode.

(** [Init] returns [tt] whatever PETSc answers: it has no exit path. *)
Lemma Init_returns blk w : fst (Init petsc_returns blk w) = tt.
Proof. by destruct (fst (Init petsc_returns blk w)). Qed.

(** The calls of [Init] up to the dispatch are those of [setup_calls], and
    the members then hold the block's values and the fresh handles. *)
Lemma setup_world blk s :
  let s1 :=
    set_STol (NonlinearSolverBlock._STol blk)
      (set_RRelTol (NonlinearSolverBlock._RRelTol blk)
        (set_RAbsTol (NonlinearSolverBlock._RAbsTol blk)
          (set_MaxIters (NonlinearSolverBlock._MaxIters blk)
            (set_SolverType (NonlinearSolverBlock._SolverType blk) s)))) in
  snd (setup petsc_returns (mkWorld s1 [])) =
  mkWorld
    (set_pc (PCOf (KSPOf (NewSNES PETSC_COMM_WORLD)))
      (set_ksp (KSPOf (NewSNES PETSC_COMM_WORLD))
        (set_snes (NewSNES PETSC_COMM_WORLD) s1)))
    (setup_calls blk).
Proof. reflexivity. Qed.

Ltac by_cases blk :=
  destruct blk as [st mi abstol rtol stol lst order];
  destruct st; try discriminate; destruct lst; try discriminate.

(** C1: with the line-search type left at [LineSearchDefault], each of the
    eight solver types ends with the line-search strategy that the table of
    per-method defaults gives for it.  The strategy is the one in force on
    the line search of the solver itself: [Init] has obtained it from the
    SNES object by [SNESGetLineSearch], [_linesearch] holds it, and the
    last type set on it is the one of the table. *)
Theorem default_linesearch_follows_table blk s :
  NonlinearSolverBlock._LineSearchType blk = LineSearchDefault ->
  recognized (NonlinearSolverBlock._SolverType blk) = true ->
  let w := run_Init petsc_returns blk s in
  _snes (this w) = NewSNES PETSC_COMM_WORLD /\
  linesearch_obtained w = true /\
  _linesearch (this w) = LineSearchOf (_snes (this w)) /\
  solver_linesearch_type w =
    spec_default_linesearch (NonlinearSolverBlock._SolverType blk) /\
  configured_linesearch w =
    spec_default_linesearch (NonlinearSolverBlock._SolverType blk).
Proof. intros Hl Hr. by_cases blk; vm_compute; repeat split. Qed.

(** C7: an explicit line-search tag (BackTrace, CP, L2 or Basic) ends as
    the strategy of the same name, whichever of the eight solver types was
    selected.  The strategy is the one in force on the line search of the
    solver itself, which [Init] has obtained from the SNES object by
    [SNESGetLineSearch] and which [_linesearch] holds. *)
Theorem explicit_linesearch_is_honoured blk s t :
  recognized (NonlinearSolverBlock._SolverType blk) = true ->
  spec_explicit_linesearch (NonlinearSolverBlock._LineSearchType blk) = Some t ->
  let w := run_Init petsc_returns blk s in
  _snes (this w) = NewSNES PETSC_COMM_WORLD /\
  linesearch_obtained w = true /\
  _linesearch (this w) = LineSearchOf (_snes (this w)) /\
  solver_linesearch_type w = Some t /\
  configured_linesearch w = Some t.
Proof.
  intros Hr Hl. by_cases blk; vm_compute in Hl; vm_compute;
    repeat split; exact Hl.
Qed.

(** C6: the calls of [Init] are those of the set-up, then those of the
    dispatch, then one trailing [SNESLineSearchSetOrder] with the
    configured order on the solver's line-search handle.  The dispatch
    applies the order once in the branches that accept it and not at all in
    the others; it obtains the line-search handle in every branch, the one
    of the trust-region method included, and the trailing call is made in
    every case. *)
Theorem order_applied_in_branch_and_once_more blk s :
  let st := NonlinearSolverBlock._SolverType blk in
  let order := NonlinearSolverBlock._LineSearchOrder blk in
  let w := run_Init petsc_returns blk s in
  exists D : list petsc_call,
    calls w = setup_calls blk ++ D ++
              [SNESLineSearchSetOrder (_linesearch (this w)) order] /\
    forallb is_dispatch_call D = true /\
    count_SetOrder D = (if accepts_order st then 1%nat else 0%nat) /\
    count_SetOrder (calls w) = (if accepts_order st then 2%nat else 1%nat) /\
    existsb is_GetLineSearch D = recognized st /\
    _linesearch (this w) =
      (if recognized st then LineSearchOf (NewSNES PETSC_COMM_WORLD)
       else _linesearch s) /\
    Forall (fun c => is_SetOrder c = true ->
              c = SNESLineSearchSetOrder (_linesearch (this w)) order) (calls w).
Proof.
  intros st order w. subst st order w.
  exists (drop (length (setup_calls blk))
            (removelast (calls (run_Init petsc_returns blk s)))).
  destruct blk as [st mi abstol rtol stol lst order].
  destruct st, lst; vm_compute; repeat split;
    repeat (apply Forall_cons; split; [intros E; (discriminate E || reflexivity)|]);
    apply Forall_nil_2.
Qed.

(** The trust-region instance of the above, spelled out. *)
Example trust_region_calls mi abstol rtol stol order s :
  let blk := NonlinearSolverBlock.mk SNESNewtonTr mi abstol rtol stol
               LineSearchDefault order in
  let ls := LineSearchOf (NewSNES PETSC_COMM_WORLD) in
  calls (run_Init petsc_returns blk s) =
  setup_calls blk ++
  [ SNESSetType (NewSNES PETSC_COMM_WORLD) SNESNEWTONTR;
    SNESGetLineSearch (NewSNES PETSC_COMM_WORLD);
    SNESLineSearchSetType ls SNESLINESEARCHBASIC;
    SNESLineSearchSetOrder ls order ].
Proof. reflexivity. Qed.

(** C8: whatever the block, [Init] first creates the solver, gives its
    inner KSP the tolerances 1e-10 (relative and absolute) with at most
    500000 iterations, a GMRES restart of 1200 and an LU preconditioner, and
    gives the outer solver the block's absolute, relative and step
    tolerances and iteration limit with -1, PETSc's "no limit", for the
    function evaluations; none of the later calls touches these settings. *)
Theorem inner_and_outer_tolerances blk s :
  let snes := NewSNES PETSC_COMM_WORLD in
  let w := run_Init petsc_returns blk s in
  exists rest : list petsc_call,
    calls w =
      [ SNESCreate PETSC_COMM_WORLD;
        SNESGetKSP snes;
        KSPSetTolerances (KSPOf snes) 1.0e-10%float 1.0e-10%float
          PETSC_DEFAULT 500000;
        KSPGMRESSetRestart (KSPOf snes) 1200;
        KSPGetPC (KSPOf snes);
        PCSetType (PCOf (KSPOf snes)) PCLU;
        KSPSetFromOptions (KSPOf snes);
        SNESSetTolerances snes
          (NonlinearSolverBlock._RAbsTol blk)
          (NonlinearSolverBlock._RRelTol blk)
          (NonlinearSolverBlock._STol blk)
          (NonlinearSolverBlock._MaxIters blk) (-1) ] ++ rest /\
    forallb is_dispatch_call rest = true /\
    _snes (this w) = snes /\ _ksp (this w) = KSPOf snes /\
    _pc (this w) = PCOf (KSPOf snes) /\
    _RAbsTol (this w) = NonlinearSolverBlock._RAbsTol blk /\
    _RRelTol (this w) = NonlinearSolverBlock._RRelTol blk /\
    _STol (this w) = NonlinearSolverBlock._STol blk /\
    _MaxIters (this w) = NonlinearSolverBlock._MaxIters blk.
Proof.
  intros snes w. subst snes w.
  exists (drop 8 (calls (run_Init petsc_returns blk s))).
  destruct blk as [st mi abstol rtol stol lst order].
  destruct st, lst; vm_compute; repeat split.
Qed.





End WithPetsc.

Lemma default_linesearch_follows_table_witness :
  let w := run_Init no_error (some_block SNESLBfgs LineSearchDefault)
             some_solver in
  _snes (this w) = NewSNES PETSC_COMM_WORLD /\
  linesearch_obtained w = true /\
  _linesearch (this w) = LineSearchOf (_snes (this w)) /\
  solver_linesearch_type w = Some SNESLINESEARCHCP /\
  configured_linesearch w = Some SNESLINESEARCHCP.
Proof.
  apply (default_linesearch_follows_table no_error
           (some_block SNESLBfgs LineSearchDefault) some_solver);
    reflexivity.
Defined.

Lemma explicit_linesearch_is_honoured_witness :
  let w := run_Init no_error (some_block SNESNewtonTr LineSearchL2)
             some_solver in
  _snes (this w) = NewSNES PETSC_COMM_WORLD /\
  linesearch_obtained w = true /\
  _linesearch (this w) = LineSearchOf (_snes (this w)) /\
  solver_linesearch_type w = Some SNESLINESEARCHL2 /\
  configured_linesearch w = Some SNESLINESEARCHL2.
Proof.
  apply (explicit_linesearch_is_honoured no_error
           (some_block SNESNewtonTr LineSearchL2) some_solver);
    reflexivity.
Defined.


End SolverFacts.

(** * Facts about [MatrixXd] *)

Module MatrixFacts.
Import Matrix MatrixSpec.

(** ** The buffer primitives *)

Lemma int_mul_in_range a b :
  INT_MIN <= a * b <= INT_MAX -> int_mul a b = Normal (a * b).
Proof. intros H. unfold int_mul. by rewrite bool_decide_eq_true_2. Qed.

Lemma vector_resize_nonneg v n val :
  0 <= n ->
  vector_resize v n val =
  Normal (take (Z.to_nat n) v ++ replicate (Z.to_nat n - length v) val).
Proof.
  intros H. unfold vector_resize. rewrite bool_decide_eq_false_2; [done|lia].
Qed.

Lemma vector_resize_negative v n val : n < 0 -> vector_resize v n val = LengthError.
Proof. intros H. unfold vector_resize. by rewrite bool_decide_eq_true_2. Qed.

Lemma length_resized (v : list double) (n : nat) val :
  length (take n v ++ replicate (n - length v) val) = n.
Proof. rewrite length_app, length_take, length_replicate. lia. Qed.

(** What [resize] leaves at each position: the old element where there
    was one, the fill value beyond. *)
Lemma lookup_resized (v : list double) (n k : nat) val :
  (k < n)%nat ->
  (take n v ++ replicate (n - length v) val) !! k =
  Some (default val (v !! k)).
Proof.
  intros Hk. destruct (decide (k < length v)%nat) as [Hlt|Hge].
  - rewrite lookup_app_l by (rewrite length_take; lia).
    rewrite lookup_take_lt by lia.
    destruct (lookup_lt_is_Some_2 v k Hlt) as [x ->]. done.
  - rewrite lookup_app_r by (rewrite length_take; lia).
    rewrite length_take, lookup_replicate_2 by lia.
    rewrite (lookup_ge_None_2 v k) by lia. done.
Qed.

Lemma vector_get_lookup (v : list double) k x :
  0 <= k -> v !! Z.to_nat k = Some x -> vector_get v k = Normal x.
Proof.
  intros Hk Hx. unfold vector_get.
  rewrite bool_decide_eq_true_2 by done. by rewrite Hx.
Qed.

Lemma vector_get_in_range (v : list double) k :
  0 <= k < Z.of_nat (length v) ->
  exists x, v !! Z.to_nat k = Some x /\ vector_get v k = Normal x.
Proof.
  intros Hk. destruct (lookup_lt_is_Some_2 v (Z.to_nat k)) as [x Hx]; [lia|].
  exists x. split; [done|]. apply vector_get_lookup; [lia|done].
Qed.

Lemma vector_get_returns (v : list double) k :
  0 <= k < Z.of_nat (length v) -> exists x, vector_get v k = Normal x.
Proof.
  intros H. destruct (vector_get_in_range v k H) as (x & _ & Hx). by exists x.
Qed.

Lemma vector_get_outside (v : list double) k :
  ~ (0 <= k < Z.of_nat (length v)) -> vector_get v k = Undefined.
Proof.
  intros Hk. unfold vector_get. case_bool_decide; [|done].
  rewrite (lookup_ge_None_2 v (Z.to_nat k)) by lia. done.
Qed.

Lemma vector_set_in_range (v : list double) k x :
  0 <= k < Z.of_nat (length v) ->
  vector_set v k x = Normal (<[Z.to_nat k := x]> v).
Proof. intros Hk. unfold vector_set. by rewrite bool_decide_eq_true_2. Qed.

Lemma vector_set_outside (v : list double) k x :
  ~ (0 <= k < Z.of_nat (length v)) -> vector_set v k x = Undefined.
Proof. intros Hk. unfold vector_set. by rewrite bool_decide_eq_false_2. Qed.

(** ** Loops *)

(** A loop whose body keeps an invariant indexed by the counter runs to
    its end and establishes the invariant at the bound. *)
Lemma for_steps_invariant {S : Type} (P : Z -> S -> Prop)
    (body : Z -> S -> outcome S) (n : nat) :
  forall lo s,
    P lo s ->
    (forall i s, lo <= i < lo + Z.of_nat n -> P i s ->
       exists s', body i s = Normal s' /\ P (i + 1) s') ->
    exists s', for_steps n lo body s = Normal s' /\ P (lo + Z.of_nat n) s'.
Proof.
  induction n as [|n IH]; intros lo s HP Hbody.
  - exists s. split; [done|]. by replace (lo + Z.of_nat 0) with lo by lia.
  - destruct (Hbody lo s) as (s1 & Hs1 & HP1); [lia|done|].
    destruct (IH (lo + 1) s1 HP1) as (s2 & Hs2 & HP2).
    { intros i t Hi. apply Hbody. lia. }
    exists s2. split.
    + simpl. rewrite Hs1. exact Hs2.
    + by replace (lo + Z.of_nat (Datatypes.S n)) with (lo + 1 + Z.of_nat n) by lia.
Qed.

Lemma for_lt_invariant {S : Type} (P : Z -> S -> Prop)
    (body : Z -> S -> outcome S) lo hi s :
  lo <= hi ->
  P lo s ->
  (forall i s, lo <= i < hi -> P i s ->
     exists s', body i s = Normal s' /\ P (i + 1) s') ->
  exists s', for_lt lo hi body s = Normal s' /\ P hi s'.
Proof.
  intros Hle HP Hbody. unfold for_lt.
  destruct (for_steps_invariant P body (Z.to_nat (hi - lo)) lo s HP)
    as (s' & Hs' & HP').
  { intros i t Hi. apply Hbody. lia. }
  exists s'. split; [done|]. by replace hi with (lo + Z.of_nat (Z.to_nat (hi - lo))) by lia.
Qed.

Lemma for_le_invariant {S : Type} (P : Z -> S -> Prop)
    (body : Z -> S -> outcome S) lo hi s :
  lo <= hi + 1 ->
  hi < INT_MAX ->
  P lo s ->
  (forall i s, lo <= i <= hi -> P i s ->
     exists s', body i s = Normal s' /\ P (i + 1) s') ->
  exists s', for_le lo hi body s = Normal s' /\ P (hi + 1) s'.
Proof.
  intros Hle Hmax HP Hbody. unfold for_le.
  destruct (for_lt_invariant P body lo (hi + 1) s) as (s' & -> & HP');
    [done|done| |].
  { intros i t Hi. apply Hbody. lia. }
  simpl. rewrite bool_decide_eq_false_2 by lia. by exists s'.
Qed.

(** A loop whose bound is [INT_MAX] and that makes at least one pass
    overflows its counter. *)
Lemma for_le_overflows {S : Type} (body : Z -> S -> outcome S) lo hi s :
  lo <= hi -> INT_MAX <= hi ->
  forall s', for_le lo hi body s <> Normal s'.
Proof.
  intros Hle Hmax s'. unfold for_le.
  destruct (for_lt lo (hi + 1) body s); simpl; try done.
  by rewrite bool_decide_eq_true_2.
Qed.

(** The same for an invariant that does not mention the counter. *)
Lemma for_le_keeps {S : Type} (P : S -> Prop)
    (body : Z -> S -> outcome S) lo hi s :
  lo <= hi + 1 ->
  hi < INT_MAX ->
  P s ->
  (forall i s, lo <= i <= hi -> P s -> exists s', body i s = Normal s' /\ P s') ->
  exists s', for_le lo hi body s = Normal s' /\ P s'.
Proof.
  intros Hle Hmax HP Hbody.
  exact (for_le_invariant (fun _ => P) body lo hi s Hle Hmax HP Hbody).
Qed.

(** The copying loop: when the right-hand side at step [i] evaluates to
    [g i] on every buffer that still has the original elements from [i]
    on, the loop returns the buffer with [g k] at each [k < mn] and the
    rest as it was. *)
Lemma fill_loop_spec mn f (g : Z -> double) (dst : list double) :
  0 <= mn <= Z.of_nat (length dst) ->
  (forall (d : list double) i, 0 <= i < mn ->
     length d = length dst ->
     (forall k : nat, i <= Z.of_nat k -> d !! k = dst !! k) ->
     f d i = Normal (g i)) ->
  exists d', fill_loop mn f dst = Normal d' /\
    length d' = length dst /\
    (forall k : nat, Z.of_nat k < mn -> d' !! k = Some (g (Z.of_nat k))) /\
    (forall k : nat, mn <= Z.of_nat k -> d' !! k = dst !! k).
Proof.
  intros Hmn Hf. unfold fill_loop.
  destruct (for_lt_invariant
    (fun i (d : list double) =>
       length d = length dst /\
       (forall k : nat, Z.of_nat k < i -> d !! k = Some (g (Z.of_nat k))) /\
       (forall k : nat, i <= Z.of_nat k -> d !! k = dst !! k))
    (fun i dst => x ← f dst i; vector_set dst i x) 0 mn dst) as (d' & Hd' & HP).
  - lia.
  - split; [done|]. split; [lia|done].
  - intros i d Hi (Hlen & Hdone & Hrest).
    rewrite (Hf d i Hi Hlen Hrest). simpl.
    rewrite vector_set_in_range by lia.
    eexists; split; [reflexivity|]. split; [by rewrite length_insert|]. split.
    + intros k Hk. destruct (decide (k = Z.to_nat i)) as [->|Hne].
      * rewrite list_lookup_insert_eq by lia. do 2 f_equal. lia.
      * rewrite list_lookup_insert_ne by done. apply Hdone. lia.
    + intros k Hk. rewrite list_lookup_insert_ne by lia. apply Hrest. lia.
  - exists d'. split; [done|]. exact HP.
Qed.

(** ** Construction and [Resize] *)

Lemma MatrixXd_mnv_returns m n val :
  0 <= m -> 0 <= n -> m * n <= INT_MAX ->
  MatrixXd_mnv m n val =
  Normal (mkMatrixXd (replicate (Z.to_nat (m * n)) val) m n (m * n)).
Proof.
  intros Hm Hn Hmn. unfold MatrixXd_mnv.
  rewrite int_mul_in_range by (unfold INT_MIN; nia). simpl.
  rewrite vector_resize_nonneg by nia. simpl.
  rewrite take_nil. simpl. by rewrite Nat.sub_0_r.
Qed.

(** [Resize] returns whenever the product of the new dimensions is a
    non-negative [int]; the old elements below the new length stay. *)
Lemma Resize_val_returns m n val A :
  0 <= m * n <= INT_MAX ->
  Resize_val m n val A =
  Normal (tt, mkMatrixXd
                (take (Z.to_nat (m * n)) (_vals A) ++
                 replicate (Z.to_nat (m * n) - length (_vals A)) val)
                m n (m * n)).
Proof.
  intros Hmn. unfold Resize_val.
  rewrite int_mul_in_range by (unfold INT_MIN; lia). simpl.
  by rewrite vector_resize_nonneg by lia.
Qed.

Lemma Resize_is_Resize_val_zero m n A : Resize m n A = Resize_val m n 0%float A.
Proof. reflexivity. Qed.

(** After a [Resize] that returns, the buffer has [m*n] elements. *)
Lemma Resize_val_length m n val A A' :
  Resize_val m n val A = Normal (tt, A') ->
  Z.of_nat (length (_vals A')) = m * n /\ _M A' = m /\ _N A' = n /\
  _MN A' = m * n.
Proof.
  unfold Resize_val, int_mul, vector_resize.
  case_bool_decide; [|done]. simpl. case_bool_decide; [done|]. simpl.
  intros [= <-]. simpl. rewrite length_resized. lia.
Qed.

Lemma five_is_not_zero : 5%float <> 0%float.
Proof.
  intros H. assert (E : PrimFloat.eqb 5 0 = true) by (rewrite H; reflexivity).
  vm_compute in E. discriminate.
Qed.

(** C2: [Resize] pads, it does not refill.  A 1x1 matrix holding 5.0 (made
    by [Resize(1,1,5.0)] on an empty matrix) that is resized to 2x1 with
    fill value 0.0, by either overload, has the two elements asked for but
    still holds 5.0 in the first. *)
Theorem Resize_keeps_old_elements :
  Resize_val 1 1 5%float MatrixXd_default = Normal (tt, A11) /\
  Resize_val 2 1 0%float A11 =
    Normal (tt, mkMatrixXd [5%float; 0%float] 2 1 2) /\
  Resize 2 1 A11 = Normal (tt, mkMatrixXd [5%float; 0%float] 2 1 2) /\
  elem (mkMatrixXd [5%float; 0%float] 2 1 2) 1 1 = Normal 5%float /\
  5%float <> 0%float.
Proof. repeat split; try reflexivity. exact five_is_not_zero. Qed.

(** ** [Inverse] and [Det] on a matrix that is not square *)

Lemma Inverse_not_square eigen_inverse A :
  _M A <> _N A ->
  Inverse eigen_inverse A =
  Fatal "the inverse operation only works for square matrix".
Proof. intros H. unfold Inverse. by rewrite bool_decide_eq_true_2. Qed.

(** C3: on the 1x2 matrix (1 2), [Inverse] stops with its diagnostic, but
    [Det] makes no test of the shape: it fills a 1x2 Eigen matrix and
    returns whatever Eigen's [determinant()] makes of it. *)
Theorem Det_has_no_square_test eigen_inverse eigen_determinant :
  Inverse eigen_inverse A12 =
    Fatal "the inverse operation only works for square matrix" /\
  Det eigen_determinant A12 =
    (d ← eigen_determinant
           (mkEigen 1 2 (<[(0, 1) := 2%float]> (<[(0, 0) := 1%float]> ∅)));
     mret (d, A12)).
Proof. split; reflexivity. Qed.

(** With an Eigen whose [determinant()] returns, [Det] returns a value for
    the non-square receiver. *)
Example Det_returns_on_nonsquare :
  Det sample_determinant A12 = Normal (0%float, A12).
Proof. reflexivity. Qed.

(** On every well-formed receiver with dimensions below [INT_MAX],
    square or not, the copy into the Eigen matrix goes through and [Det]
    is what Eigen answers. *)
Lemma to_Eigen_returns A :
  well_formed A -> countable A ->
  exists E, to_Eigen A (Eigen_MatrixXd (_M A) (_N A)) = Normal E /\
            rows E = _M A /\ cols E = _N A.
Proof.
  intros (HM & HN & _ & _ & Hbuf) [HcM HcN].
  unfold buffer_matches_shape in Hbuf.
  set (P := fun E : EigenMatrixXd => rows E = _M A /\ cols E = _N A).
  unfold to_Eigen. apply (for_le_keeps P); [lia|done|done|].
  intros i E Hi HE. apply (for_le_keeps P); [lia|done|done|].
  intros j F Hj [HFr HFc].
  assert (0 <= (i - 1) * _N A + j - 1 < Z.of_nat (length (_vals A))) as Hoff
    by nia.
  unfold elem. destruct (vector_get_returns _ _ Hoff) as [x ->]. simpl.
  unfold coeffRef_store. rewrite !bool_decide_eq_true_2 by lia. simpl.
  by eexists.
Qed.

Lemma Det_defers_to_Eigen eigen_determinant A :
  well_formed A -> countable A ->
  exists E, rows E = _M A /\ cols E = _N A /\
    Det eigen_determinant A = (d ← eigen_determinant E; mret (d, A)).
Proof.
  intros HA HcA. destruct (to_Eigen_returns A HA HcA) as (E & HE & Hr & Hc).
  exists E. split; [done|]. split; [done|]. unfold Det. by rewrite HE.
Qed.

(** ** Assignment *)

Ltac wf_concrete :=
  unfold well_formed, buffer_matches_shape, INT_MAX; simpl; lia.

(** The loop [for(int i=0;i<mn;++i) dst[i]=src[i];] over two buffers of
    length [mn] returns the source buffer. *)
Lemma copy_loop (src dst : list double) mn f :
  mn = Z.of_nat (length src) ->
  length dst = length src ->
  (forall d i, f d i = vector_get src i) ->
  fill_loop mn f dst = Normal src.
Proof.
  intros Hmn Hlen Hf.
  destruct (fill_loop_spec mn f
              (fun i => default 0%float (src !! Z.to_nat i)) dst)
    as (d' & Hd' & Hlen' & Hdone & _).
  - lia.
  - intros d i Hi _ _. rewrite Hf.
    destruct (vector_get_in_range src i) as (x & Hx & ->); [lia|].
    cbv beta. by rewrite Hx.
  - rewrite Hd'. f_equal. apply list_eq. intros k.
    destruct (decide (k < length src)%nat) as [Hk|Hk].
    + rewrite Hdone by lia. rewrite Nat2Z.id.
      by destruct (lookup_lt_is_Some_2 src k Hk) as [x ->].
    + rewrite !lookup_ge_None_2; [done|lia|lia].
Qed.

Lemma well_formed_eta A :
  well_formed A -> mkMatrixXd (_vals A) (_M A) (_N A) (_M A * _N A) = A.
Proof. intros (_ & _ & _ & HMN & _). destruct A; simpl in *. by subst. Qed.

(** A target with [_M==0&&_N==0] takes the shape and the elements of the
    source. *)
Lemma op_assign_fresh A B :
  well_formed A -> _M B = 0 -> _N B = 0 -> op_assign A B = Normal (tt, A).
Proof.
  intros HA HM HN. pose proof HA as (HM0 & HN0 & Hmax & HMN & Hbuf).
  unfold buffer_matches_shape in Hbuf. unfold op_assign.
  rewrite !bool_decide_eq_true_2 by done. simpl.
  rewrite int_mul_in_range by (unfold INT_MIN; nia). simpl.
  rewrite vector_resize_nonneg by nia. simpl.
  rewrite (copy_loop (_vals A)); [|lia|by rewrite length_resized; lia|done].
  simpl. by rewrite well_formed_eta.
Qed.

(** A target of the same shape takes the elements of the source. *)
Lemma op_assign_same_shape A B :
  well_formed A -> well_formed B ->
  ~ (_M B = 0 /\ _N B = 0) -> _M B = _M A -> _N B = _N A ->
  op_assign A B = Normal (tt, A).
Proof.
  intros HA HB Hnz HM HN. pose proof HA as (_ & _ & _ & HMNA & HbufA).
  destruct HB as (_ & _ & _ & HMNB & HbufB).
  unfold buffer_matches_shape in *. unfold op_assign.
  replace (bool_decide (_M B = 0) && bool_decide (_N B = 0)) with false.
  2:{ symmetry. apply andb_false_iff.
      destruct (decide (_M B = 0)); [right|left];
        apply bool_decide_eq_false_2; tauto. }
  rewrite !bool_decide_eq_true_2 by done. simpl.
  rewrite (copy_loop (_vals A)); [|lia|lia|done].
  simpl. unfold set_vals. rewrite HM, HN, HMNB, HM, HN.
  by rewrite well_formed_eta.
Qed.

(** A target that has a shape, and not the one of the source, stops the
    process. *)
Lemma op_assign_mismatch A B :
  ~ (_M B = 0 /\ _N B = 0) -> ~ (_M B = _M A /\ _N B = _N A) ->
  op_assign A B =
  Fatal "a=b cant be applied for two matrix with different size".
Proof.
  intros Hnz Hne. unfold op_assign.
  replace (bool_decide (_M B = 0) && bool_decide (_N B = 0)) with false.
  2:{ symmetry. apply andb_false_iff.
      destruct (decide (_M B = 0)); [right|left];
        apply bool_decide_eq_false_2; tauto. }
  replace (bool_decide (_M B = _M A) && bool_decide (_N B = _N A)) with false.
  2:{ symmetry. apply andb_false_iff.
      destruct (decide (_M B = _M A)); [right|left];
        apply bool_decide_eq_false_2; tauto. }
  reflexivity.
Qed.

(** C5: the three cases of [B = A].  A target with [M==0] and [N==0]
    becomes a copy of [A], shape and elements; a target that already has
    the shape of [A] receives the elements of [A]; a target with another
    shape ends in the fatal diagnostic. *)
Theorem assignment_cases A B :
  well_formed A ->
  (_M B = 0 /\ _N B = 0 -> op_assign A B = Normal (tt, A)) /\
  (well_formed B -> ~ (_M B = 0 /\ _N B = 0) ->
   _M B = _M A /\ _N B = _N A ->
   op_assign A B = Normal (tt, set_vals (_vals A) B) /\
   set_vals (_vals A) B = A) /\
  (~ (_M B = 0 /\ _N B = 0) -> ~ (_M B = _M A /\ _N B = _N A) ->
   op_assign A B =
   Fatal "a=b cant be applied for two matrix with different size").
Proof.
  intros HA. split; [|split].
  - intros [HM HN]. by apply op_assign_fresh.
  - intros HB Hnz [HM HN].
    assert (set_vals (_vals A) B = A) as Heq.
    { destruct HB as (_ & _ & _ & HMNB & _). unfold set_vals.
      rewrite HM, HN, HMNB, HM, HN. by apply well_formed_eta. }
    split; [|done]. rewrite Heq. by apply op_assign_same_shape.
  - apply op_assign_mismatch.
Qed.

Lemma assignment_cases_witness :
  op_assign A23 MatrixXd_default = Normal (tt, A23) /\
  op_assign A23 B23 = Normal (tt, A23) /\
  op_assign A23 A11 =
    Fatal "a=b cant be applied for two matrix with different size".
Proof.
  assert (well_formed A23) as HA by wf_concrete.
  split; [|split].
  - destruct (assignment_cases A23 MatrixXd_default HA) as (H & _ & _).
    apply H. split; reflexivity.
  - destruct (assignment_cases A23 B23 HA) as (_ & H & _).
    destruct H as [H1 H2].
    + wf_concrete.
    + simpl. lia.
    + split; reflexivity.
    + rewrite H1. reflexivity.
  - destruct (assignment_cases A23 A11 HA) as (_ & _ & H).
    apply H; simpl; lia.
Defined.

(** ** Element access *)

Lemma offset_in_range M N i j :
  1 <= i <= M -> 1 <= j <= N -> 0 <= offset N i j < M * N.
Proof. unfold offset. nia. Qed.

(** Two positions of a row-major buffer share an offset only when they
    are the same position. *)
Lemma offset_injective N i j i' j' :
  1 <= j <= N -> 1 <= j' <= N ->
  offset N i j = offset N i' j' -> i = i' /\ j = j'.
Proof.
  unfold offset. intros Hj Hj' H.
  assert (i = i') as -> by nia. split; [done|lia].
Qed.

Lemma elem_offset A i j :
  elem A i j = vector_get (_vals A) (offset (_N A) i j).
Proof. unfold elem, offset. f_equal. lia. Qed.

Lemma elem_store_offset A i j x :
  elem_store A i j x =
  (vals ← vector_set (_vals A) (offset (_N A) i j) x; mret (set_vals vals A)).
Proof. unfold elem_store, offset. do 2 f_equal. lia. Qed.

Lemma elem_in_range A i j :
  0 <= offset (_N A) i j < Z.of_nat (length (_vals A)) ->
  exists x, _vals A !! Z.to_nat (offset (_N A) i j) = Some x /\
            elem A i j = Normal x.
Proof. intros H. rewrite elem_offset. by apply vector_get_in_range. Qed.

Lemma elem_store_in_range A i j x :
  0 <= offset (_N A) i j < Z.of_nat (length (_vals A)) ->
  elem_store A i j x =
  Normal (set_vals (<[Z.to_nat (offset (_N A) i j) := x]> (_vals A)) A).
Proof.
  intros H. rewrite elem_store_offset. by rewrite vector_set_in_range.
Qed.

(** ** Transposition *)

Lemma Transpose_inner A i T :
  well_formed A -> _N A < INT_MAX -> 1 <= i <= _M A ->
  transposed_upto A i 1 T ->
  exists T',
    for_le 1 (_N A) (fun j temp => x ← elem A i j; elem_store temp j i x) T
      = Normal T' /\
    transposed_upto A (i + 1) 1 T'.
Proof.
  intros (HM0 & HN0 & _ & _ & Hbuf) HcN Hi HT.
  unfold buffer_matches_shape in Hbuf.
  destruct (for_le_invariant (fun j T => transposed_upto A i j T)
              (fun j temp => x ← elem A i j; elem_store temp j i x)
              1 (_N A) T) as (T' & HT' & HP); [lia|done|done| |].
  - intros j U Hj (HUM & HUN & HUMN & HUlen & HU).
    pose proof (offset_in_range (_M A) (_N A) i j Hi Hj) as Hoff.
    pose proof (offset_in_range (_N A) (_M A) j i Hj Hi) as Hoff'.
    destruct (elem_in_range A i j) as (x & Hx & ->); [lia|]. simpl.
    rewrite elem_store_in_range by (rewrite HUN; lia).
    eexists; split; [reflexivity|]. rewrite HUN.
    split; [done|]. split; [done|]. split; [done|].
    split; [simpl; rewrite length_insert; lia|].
    intros i' j' Hi' Hj' Hlt. simpl.
    destruct (decide (i' = i /\ j' = j)) as [[-> ->]|Hne].
    + rewrite list_lookup_insert_eq by lia. done.
    + pose proof (offset_in_range (_N A) (_M A) j' i' Hj' Hi') as Hoff''.
      rewrite list_lookup_insert_ne.
      * apply HU; [done..|lia].
      * intros Heq. apply Hne.
        destruct (offset_injective (_M A) j i j' i') as [-> ->]; [lia..|done].
  - exists T'. split; [done|].
    destruct HP as (H1 & H2 & H3 & H4 & H5).
    repeat (split; [done|]). intros i' j' Hi' Hj' Hlt. apply H5; [done..|lia].
Qed.

(** [Transpose] on a well-formed matrix returns, leaves the receiver as
    it was, and the matrix it returns has the two dimensions exchanged and
    element [(j,i)] equal to element [(i,j)] of the receiver. *)
Lemma Transpose_returns A :
  well_formed A -> countable A ->
  exists T, Transpose A = Normal (T, A) /\
    well_formed T /\ _M T = _N A /\ _N T = _M A /\
    forall i j, 1 <= i <= _M A -> 1 <= j <= _N A ->
      _vals T !! Z.to_nat (offset (_M A) j i) =
      _vals A !! Z.to_nat (offset (_N A) i j).
Proof.
  intros HA [HcM HcN]. pose proof HA as (HM0 & HN0 & Hmax & HMN & Hbuf).
  unfold Transpose, MatrixXd_mn.
  rewrite MatrixXd_mnv_returns by lia. simpl.
  destruct (for_le_invariant (fun i T => transposed_upto A i 1 T)
    (fun i temp =>
       for_le 1 (_N A) (fun j temp => x ← elem A i j; elem_store temp j i x) temp)
    1 (_M A)
    (mkMatrixXd (replicate (Z.to_nat (_N A * _M A)) 0%float)
                (_N A) (_M A) (_N A * _M A))) as (T & HT & HP).
  - lia.
  - done.
  - repeat (split; [done|]). split.
    + simpl. rewrite length_replicate. nia.
    + intros i' j' Hi' Hj' Hlt. lia.
  - intros i U Hi HU. by apply Transpose_inner.
  - rewrite HT. simpl. exists T. split; [done|].
    destruct HP as (H1 & H2 & H3 & H4 & H5).
    split; [|split; [done|split; [done|]]].
    + unfold well_formed, buffer_matches_shape. rewrite H1, H2, H3. lia.
    + intros i j Hi Hj. apply H5; [done..|lia].
Qed.

(** Every index of a buffer of [M*N] elements is the offset of one
    position [(i,j)] of the matrix. *)
Lemma offset_surjective M N (k : nat) :
  0 <= M -> 0 <= N -> Z.of_nat k < M * N ->
  exists i j, 1 <= i <= M /\ 1 <= j <= N /\ offset N i j = Z.of_nat k.
Proof.
  intros HM HN Hk. assert (0 < N) by nia.
  exists (Z.of_nat k / N + 1), (Z.of_nat k mod N + 1).
  pose proof (Z.mod_pos_bound (Z.of_nat k) N ltac:(lia)).
  pose proof (Z.div_mod (Z.of_nat k) N ltac:(lia)).
  assert (0 <= Z.of_nat k / N) by (apply Z.div_pos; lia).
  assert (Z.of_nat k / N < M) by (apply Z.div_lt_upper_bound; lia).
  unfold offset. repeat split; lia.
Qed.

(** C9: transposing twice gives the matrix back, and [Transpose] leaves
    its receiver as it was.  On a well-formed [A] of shape [(M,N)], with
    both dimensions below [INT_MAX] so that the loop counters can pass
    them, the call returns a matrix [T] of shape [(N,M)] with
    [T(j,i)=A(i,j)] and the receiver [A] unchanged; the call on [T] returns
    [A] itself, so every element [(i,j)] read from the result is the one
    read from [A]. *)
Theorem Transpose_twice A :
  well_formed A -> countable A ->
  exists T,
    Transpose A = Normal (T, A) /\
    _M T = _N A /\ _N T = _M A /\
    (forall i j, 1 <= i <= _M A -> 1 <= j <= _N A ->
       exists x, elem A i j = Normal x /\ elem T j i = Normal x) /\
    exists A2,
      Transpose T = Normal (A2, T) /\
      _M A2 = _M A /\ _N A2 = _N A /\
      (forall i j, 1 <= i <= _M A -> 1 <= j <= _N A ->
         exists x, elem A i j = Normal x /\ elem A2 i j = Normal x) /\
      A2 = A.
Proof.
  intros HA HcA. pose proof HA as (HM0 & HN0 & Hmax & HMN & Hbuf).
  unfold buffer_matches_shape in Hbuf.
  destruct (Transpose_returns A HA HcA) as (T & HT & HTwf & HTM & HTN & HTv).
  assert (countable T) as HcT
    by (destruct HcA; unfold countable; rewrite HTM, HTN; done).
  destruct (Transpose_returns T HTwf HcT)
    as (A2 & HA2 & HA2wf & HA2M & HA2N & HA2v).
  rewrite HTM, HTN in *.
  assert (forall i j, 1 <= i <= _M A -> 1 <= j <= _N A ->
            exists x, elem A i j = Normal x) as Helem.
  { intros i j Hi Hj. pose proof (offset_in_range _ _ i j Hi Hj).
    destruct (elem_in_range A i j) as (x & _ & Hx); [lia|]. by exists x. }
  assert (A2 = A) as ->.
  { pose proof HA2wf as (_ & _ & _ & HMN2 & Hbuf2).
    unfold buffer_matches_shape in Hbuf2. rewrite HA2M, HA2N in *.
    rewrite <- (well_formed_eta A HA), <- (well_formed_eta A2 HA2wf).
    rewrite HA2M, HA2N. f_equal. apply list_eq. intros k.
    destruct (decide (Z.of_nat k < _M A * _N A)) as [Hk|Hk].
    - destruct (offset_surjective (_M A) (_N A) k) as (i & j & Hi & Hj & Hoff);
        [done..|].
      rewrite <- (Nat2Z.id k), <- Hoff.
      rewrite (HA2v j i Hj Hi). by apply HTv.
    - rewrite !lookup_ge_None_2; [done|lia|lia]. }
  exists T. split; [done|]. split; [done|]. split; [done|]. split.
  - intros i j Hi Hj.
    pose proof (offset_in_range _ _ i j Hi Hj).
    pose proof (offset_in_range _ _ j i Hj Hi).
    destruct (elem_in_range A i j) as (x & Hx & Hex); [lia|].
    exists x. split; [done|]. rewrite elem_offset, HTN.
    apply vector_get_lookup; [lia|]. by rewrite HTv.
  - exists A. split; [done|]. split; [done|]. split; [done|]. split; [|done].
    intros i j Hi Hj. destruct (Helem i j Hi Hj) as [x Hx]. by exists x.
Qed.

Lemma Transpose_twice_witness :
  exists T,
    Transpose A23 = Normal (T, A23) /\
    _M T = 3 /\ _N T = 2 /\
    (forall i j, 1 <= i <= 2 -> 1 <= j <= 3 ->
       exists x, elem A23 i j = Normal x /\ elem T j i = Normal x) /\
    exists A2,
      Transpose T = Normal (A2, T) /\
      _M A2 = 2 /\ _N A2 = 3 /\
      (forall i j, 1 <= i <= 2 -> 1 <= j <= 3 ->
         exists x, elem A23 i j = Normal x /\ elem A2 i j = Normal x) /\
      A2 = A23.
Proof.
  apply (Transpose_twice A23); [wf_concrete|].
  unfold countable, INT_MAX. simpl. lia.
Defined.

Example Transpose_A23 : Transpose A23 = Normal (A32, A23).
Proof. reflexivity. Qed.

(** ** The buffer length across the operations *)

Lemma has_shape_well_formed m n T :
  0 <= m -> 0 <= n -> m * n <= INT_MAX ->
  has_shape m n (m * n) T -> well_formed T.
Proof.
  intros Hm Hn Hmn (HM & HN & HMN & Hlen).
  unfold well_formed, buffer_matches_shape. rewrite HM, HN, HMN. lia.
Qed.

Lemma well_formed_has_shape A :
  well_formed A -> has_shape (_M A) (_N A) (_M A * _N A) A.
Proof. intros (_ & _ & _ & HMN & Hbuf). by repeat split. Qed.

Lemma elem_returns m n mn T i j :
  has_shape m n mn T -> 1 <= i <= m -> 1 <= j <= n ->
  exists x, elem T i j = Normal x.
Proof.
  intros (HM & HN & _ & Hlen) Hi Hj.
  pose proof (offset_in_range m n i j Hi Hj).
  destruct (elem_in_range T i j) as (x & _ & Hx); [rewrite HN; lia|].
  by exists x.
Qed.

Lemma elem_store_keeps_shape m n mn T i j x :
  has_shape m n mn T -> 1 <= i <= m -> 1 <= j <= n ->
  exists T', elem_store T i j x = Normal T' /\ has_shape m n mn T'.
Proof.
  intros (HM & HN & HMN & Hlen) Hi Hj.
  pose proof (offset_in_range m n i j Hi Hj).
  rewrite elem_store_in_range by (rewrite HN; lia).
  eexists; split; [reflexivity|].
  repeat split; simpl; try done. by rewrite length_insert.
Qed.

(** The copying loop returns, with a buffer of the same length, as soon
    as its right-hand side can be evaluated at every step. *)
Lemma fill_loop_returns mn f (dst : list double) :
  0 <= mn <= Z.of_nat (length dst) ->
  (forall (d : list double) i, 0 <= i < mn ->
     length d = length dst ->
     (forall k : nat, i <= Z.of_nat k -> d !! k = dst !! k) ->
     exists x, f d i = Normal x) ->
  exists d', fill_loop mn f dst = Normal d' /\ length d' = length dst.
Proof.
  intros Hmn Hf. unfold fill_loop.
  destruct (for_lt_invariant
    (fun i (d : list double) =>
       length d = length dst /\
       (forall k : nat, i <= Z.of_nat k -> d !! k = dst !! k))
    (fun i dst => x ← f dst i; vector_set dst i x) 0 mn dst)
    as (d' & Hd' & Hlen & _).
  - lia.
  - done.
  - intros i d Hi (Hlen & Hrest).
    destruct (Hf d i Hi Hlen Hrest) as [x ->]. simpl.
    rewrite vector_set_in_range by lia.
    eexists; split; [reflexivity|]. split; [by rewrite length_insert|].
    intros k Hk. rewrite list_lookup_insert_ne by lia. apply Hrest. lia.
  - by exists d'.
Qed.

Lemma MatrixXd_mn_well_formed A :
  well_formed A ->
  exists temp, MatrixXd_mn (_M A) (_N A) = Normal temp /\
    has_shape (_M A) (_N A) (_M A * _N A) temp.
Proof.
  intros (HM & HN & Hmax & _ & _). unfold MatrixXd_mn.
  rewrite MatrixXd_mnv_returns by done.
  eexists; split; [reflexivity|]. repeat split. simpl.
  rewrite length_replicate. nia.
Qed.

Lemma set_vals_has_shape m n mn T (v : list double) :
  has_shape m n mn T -> length v = length (_vals T) ->
  has_shape m n mn (set_vals v T).
Proof. intros (HM & HN & HMN & Hlen) Hv. repeat split; simpl; try done. lia. Qed.

Lemma scalar_op_returns op val A :
  well_formed A ->
  yields_well_formed (_M A) (_N A) A (scalar_op op val A).
Proof.
  intros HA. pose proof HA as (HM & HN & Hmax & HMN & Hbuf).
  unfold buffer_matches_shape in Hbuf. unfold scalar_op.
  destruct (MatrixXd_mn_well_formed A HA) as (temp & -> & Htemp). simpl.
  pose proof Htemp as (_ & _ & _ & Hlen).
  destruct (fill_loop_returns (_MN A)
    (fun _ i => x ← vector_get (_vals A) i; mret (op x val)) (_vals temp))
    as (d' & Hd' & Hlen'); [lia| |].
  { intros d i Hi _ _.
    destruct (vector_get_returns (_vals A) i) as [x ->]; [lia|]. by eexists. }
  unfold scalar_loop. rewrite Hd'. simpl.
  eexists; split; [reflexivity|].
  pose proof (set_vals_has_shape _ _ _ temp d' Htemp Hlen') as Hs.
  split; [by apply (has_shape_well_formed (_M A) (_N A))|].
  by destruct Hs as (? & ? & _).
Qed.

Lemma scalar_op_assign_returns op val A :
  well_formed A -> leaves_well_formed (scalar_op_assign op val A).
Proof.
  intros HA. pose proof HA as (HM & HN & Hmax & HMN & Hbuf).
  unfold buffer_matches_shape in Hbuf. unfold scalar_op_assign.
  destruct (fill_loop_returns (_MN A)
    (fun vals i => x ← vector_get vals i; mret (op x val)) (_vals A))
    as (d' & Hd' & Hlen'); [lia| |].
  { intros d i Hi Hlen _.
    destruct (vector_get_returns d i) as [x ->]; [lia|]. by eexists. }
  unfold scalar_loop_inplace. rewrite Hd'. simpl.
  eexists _, _; split; [reflexivity|].
  apply (has_shape_well_formed (_M A) (_N A)); [done..|].
  apply set_vals_has_shape; [|done]. by apply well_formed_has_shape.
Qed.

Lemma same_shape_test A a :
  _M A = _M a -> _N A = _N a ->
  bool_decide (_M A = _M a) && bool_decide (_N A = _N a) = true.
Proof. intros H1 H2. by rewrite !bool_decide_eq_true_2. Qed.

Lemma matrix_op_returns op diag a A :
  well_formed A -> well_formed a -> _M A = _M a -> _N A = _N a ->
  yields_well_formed (_M A) (_N A) A (matrix_op op diag a A).
Proof.
  intros HA Ha HMa HNa. pose proof HA as (HM & HN & Hmax & HMN & Hbuf).
  destruct Ha as (_ & _ & _ & _ & Hbufa).
  unfold buffer_matches_shape in *. unfold matrix_op.
  destruct (MatrixXd_mn_well_formed A HA) as (temp & -> & Htemp). simpl.
  rewrite same_shape_test by done.
  pose proof Htemp as (_ & _ & _ & Hlen).
  destruct (fill_loop_returns (_MN A)
    (fun _ i => x ← vector_get (_vals A) i;
                y ← vector_get (_vals a) i; mret (op x y)) (_vals temp))
    as (d' & Hd' & Hlen'); [lia| |].
  { intros d i Hi _ _.
    destruct (vector_get_returns (_vals A) i) as [x ->]; [lia|].
    destruct (vector_get_returns (_vals a) i) as [y ->]; [lia|]. by eexists. }
  unfold matrix_loop. rewrite Hd'. simpl.
  eexists; split; [reflexivity|].
  pose proof (set_vals_has_shape _ _ _ temp d' Htemp Hlen') as Hs.
  split; [by apply (has_shape_well_formed (_M A) (_N A))|].
  by destruct Hs as (? & ? & _).
Qed.

Lemma matrix_op_assign_returns op diag a A :
  well_formed A -> well_formed a -> _M A = _M a -> _N A = _N a ->
  leaves_well_formed (matrix_op_assign op diag a A).
Proof.
  intros HA Ha HMa HNa. pose proof HA as (HM & HN & Hmax & HMN & Hbuf).
  destruct Ha as (_ & _ & _ & _ & Hbufa).
  unfold buffer_matches_shape in *. unfold matrix_op_assign.
  destruct (MatrixXd_mn_well_formed A HA) as (temp & -> & Htemp). simpl.
  rewrite same_shape_test by done.
  destruct (fill_loop_returns (_MN A)
    (fun vals i => x ← vector_get vals i;
                   y ← vector_get (_vals a) i; mret (op x y)) (_vals A))
    as (d' & Hd' & Hlen'); [lia| |].
  { intros d i Hi Hlen _.
    destruct (vector_get_returns d i) as [x ->]; [lia|].
    destruct (vector_get_returns (_vals a) i) as [y ->]; [lia|]. by eexists. }
  unfold matrix_loop_inplace. rewrite Hd'. simpl.
  eexists _, _; split; [reflexivity|].
  apply (has_shape_well_formed (_M A) (_N A)); [done..|].
  apply set_vals_has_shape; [|done]. by apply well_formed_has_shape.
Qed.

Lemma op_mul_returns muladd a A :
  well_formed A -> well_formed a -> countable A -> countable a ->
  _N A = _M a -> _M A * _N a <= INT_MAX ->
  yields_well_formed (_M A) (_N a) A (op_mul muladd a A).
Proof.
  intros HA Ha [HcM HcN] [HcMa HcNa] Hinner Hmax.
  pose proof (well_formed_has_shape A HA) as HsA.
  pose proof (well_formed_has_shape a Ha) as Hsa.
  destruct HA as (HM & HN & _ & _ & _). destruct Ha as (HMa & HNa & _ & _ & _).
  unfold op_mul, MatrixXd_mn. rewrite MatrixXd_mnv_returns by done. simpl.
  rewrite bool_decide_eq_false_2 by (intros H; by apply H).
  set (P := fun T : MatrixXd => has_shape (_M A) (_N a) (_M A * _N a) T).
  destruct (for_le_keeps P
    (fun i temp =>
      for_le 1 (_N a) (fun j temp =>
        temp ← elem_store temp i j 0%float;
        for_le 1 (_M a) (fun k temp =>
          t ← elem temp i j;
          x ← elem A i k;
          y ← elem a k j;
          elem_store temp i j (muladd t x y)) temp) temp)
    1 (_M A)
    (mkMatrixXd (replicate (Z.to_nat (_M A * _N a)) 0%float)
       (_M A) (_N a) (_M A * _N a))) as (T & HT & HP).
  - lia.
  - done.
  - repeat split. simpl. rewrite length_replicate. nia.
  - intros i U Hi HU. apply (for_le_keeps P); [lia|done|done|].
    intros j V Hj HV.
    destruct (elem_store_keeps_shape _ _ _ V i j 0%float HV Hi Hj)
      as (V' & -> & HV'). simpl.
    apply (for_le_keeps P); [lia|done|done|].
    intros k W Hk HW.
    destruct (elem_returns _ _ _ W i j HW Hi Hj) as [t ->]. simpl.
    destruct (elem_returns _ _ _ A i k HsA Hi) as [x ->]; [lia|]. simpl.
    destruct (elem_returns _ _ _ a k j Hsa Hk Hj) as [y ->]. simpl.
    by apply elem_store_keeps_shape.
  - rewrite HT. simpl. exists T. split; [done|].
    split; [by apply (has_shape_well_formed (_M A) (_N a))|].
    by destruct HP as (? & ? & _).
Qed.

Lemma Transpose_yields_well_formed A :
  well_formed A -> countable A ->
  yields_well_formed (_N A) (_M A) A (Transpose A).
Proof.
  intros HA HcA.
  destruct (Transpose_returns A HA HcA) as (T & HT & Hwf & HM & HN & _).
  by exists T.
Qed.

(** [Transposed] leaves the receiver equal to what [Transpose] returns. *)
Lemma Transposed_returns A :
  well_formed A -> countable A ->
  exists T, Transpose A = Normal (T, A) /\ Transposed A = Normal (tt, T) /\
            well_formed T.
Proof.
  intros HA HcA. pose proof HA as (HM0 & HN0 & Hmax & HMN & Hbuf).
  destruct (Transpose_returns A HA HcA) as (T & HT & Hwf & HM & HN & _).
  exists T. split; [done|]. split; [|done].
  unfold Transposed. rewrite HT. simpl.
  rewrite Resize_is_Resize_val_zero, Resize_val_returns
    by (rewrite HM, HN; lia). simpl.
  set (R := mkMatrixXd _ _ _ _).
  assert (well_formed R) as HR.
  { unfold well_formed, buffer_matches_shape, R. simpl.
    rewrite length_resized, HM, HN. lia. }
  destruct (decide (_M R = 0 /\ _N R = 0)) as [[H1 H2]|Hnz].
  - by apply op_assign_fresh.
  - by apply op_assign_same_shape.
Qed.

Lemma op_assign_scalar_returns val A :
  well_formed A -> leaves_well_formed (op_assign_scalar val A).
Proof.
  intros HA. eexists _, _; split; [reflexivity|].
  destruct HA as (? & ? & ? & ? & Hbuf).
  unfold well_formed, buffer_matches_shape in *. simpl.
  unfold vector_fill. rewrite length_replicate. lia.
Qed.

Lemma op_assign_returns A B :
  well_formed A -> well_formed B ->
  (_M B = 0 /\ _N B = 0) \/ (_M B = _M A /\ _N B = _N A) ->
  op_assign A B = Normal (tt, A).
Proof.
  intros HA HB Hcase.
  destruct (decide (_M B = 0 /\ _N B = 0)) as [[H1 H2]|Hnz].
  - by apply op_assign_fresh.
  - destruct Hcase as [?|[H1 H2]]; [done|]. by apply op_assign_same_shape.
Qed.

(** C4, the counterexample: [Clean] empties the buffer of a 1x1 matrix
    and leaves both dimensions at 1. *)
Lemma Clean_breaks_buffer_length :
  buffer_matches_shape A11 /\
  Clean A11 = Normal (tt, mkMatrixXd [] 1 1 1) /\
  ~ buffer_matches_shape (mkMatrixXd [] 1 1 1).
Proof.
  split; [reflexivity|]. split; [reflexivity|].
  unfold buffer_matches_shape. simpl. lia.
Qed.

(** C4, as amended: construction and [Resize] with a number of elements
    [m*n] between 0 and [INT_MAX] return and leave a buffer of [m*n]
    elements for the shape [(m,n)]; assignment, the arithmetic operators
    and the two transpositions return on well-formed operands (for the
    loops over rows and columns, with dimensions below [INT_MAX]) and
    leave or return a well-formed matrix, whose buffer therefore has
    [GetM()*GetN()] elements; [Clean] empties the buffer and keeps the
    dimensions; element access [(i,j)] reads and writes the element at
    offset [(i-1)*N+(j-1)] of the buffer. *)
Theorem buffer_length_across_operations :
  (forall m n val, 0 <= m * n <= INT_MAX ->
     exists A, MatrixXd_mnv m n val = Normal A /\
       buffer_matches_shape A /\ _M A = m /\ _N A = n /\ _MN A = m * n) /\
  (forall A m n val, 0 <= m * n <= INT_MAX ->
     exists A', Resize_val m n val A = Normal (tt, A') /\
       buffer_matches_shape A' /\ _M A' = m /\ _N A' = n /\
       _MN A' = m * n) /\
  (forall A m n, Resize m n A = Resize_val m n 0%float A) /\
  (forall A, Clean A = Normal (tt, mkMatrixXd [] (_M A) (_N A) (_MN A))) /\
  (forall A val, well_formed A -> leaves_well_formed (op_assign_scalar val A)) /\
  (forall A B, well_formed A -> well_formed B ->
     (_M B = 0 /\ _N B = 0) \/ (_M B = _M A /\ _N B = _N A) ->
     leaves_well_formed (op_assign A B)) /\
  (forall op val A, well_formed A ->
     yields_well_formed (_M A) (_N A) A (scalar_op op val A)) /\
  (forall op val A, well_formed A ->
     leaves_well_formed (scalar_op_assign op val A)) /\
  (forall op diag a A, well_formed A -> well_formed a ->
     _M A = _M a -> _N A = _N a ->
     yields_well_formed (_M A) (_N A) A (matrix_op op diag a A)) /\
  (forall op diag a A, well_formed A -> well_formed a ->
     _M A = _M a -> _N A = _N a ->
     leaves_well_formed (matrix_op_assign op diag a A)) /\
  (forall muladd a A, well_formed A -> well_formed a ->
     countable A -> countable a ->
     _N A = _M a -> _M A * _N a <= INT_MAX ->
     yields_well_formed (_M A) (_N a) A (op_mul muladd a A)) /\
  (forall A, well_formed A -> countable A ->
     yields_well_formed (_N A) (_M A) A (Transpose A)) /\
  (forall A, well_formed A -> countable A ->
     leaves_well_formed (Transposed A)) /\
  (forall A i j, well_formed A -> 1 <= i <= _M A -> 1 <= j <= _N A ->
     exists x, _vals A !! Z.to_nat ((i - 1) * _N A + (j - 1)) = Some x /\
               op_call i j A = Normal (x, A)) /\
  (forall A i j v, well_formed A -> 1 <= i <= _M A -> 1 <= j <= _N A ->
     op_call_store i j v A =
     Normal (tt, set_vals
                   (<[Z.to_nat ((i - 1) * _N A + (j - 1)) := v]> (_vals A)) A)).
Proof.
  repeat apply conj.
  - intros m n val Hmn. unfold MatrixXd_mnv.
    rewrite int_mul_in_range by (unfold INT_MIN; lia). simpl.
    rewrite vector_resize_nonneg by lia. simpl.
    eexists; split; [reflexivity|]. split; [|done].
    unfold buffer_matches_shape. simpl. rewrite length_resized. lia.
  - intros A m n val Hmn. rewrite Resize_val_returns by done.
    eexists; split; [reflexivity|]. split; [|done].
    unfold buffer_matches_shape. simpl. rewrite length_resized. lia.
  - reflexivity.
  - reflexivity.
  - intros A val. apply op_assign_scalar_returns.
  - intros A B HA HB Hcase. exists tt, A. split; [|done].
    by apply op_assign_returns.
  - apply scalar_op_returns.
  - apply scalar_op_assign_returns.
  - apply matrix_op_returns.
  - apply matrix_op_assign_returns.
  - apply op_mul_returns.
  - apply Transpose_yields_well_formed.
  - intros A HA HcA.
    destruct (Transposed_returns A HA HcA) as (T & _ & HT & Hwf).
    by exists tt, T.
  - intros A i j HA Hi Hj. pose proof HA as (_ & _ & _ & _ & Hbuf).
    unfold buffer_matches_shape in Hbuf.
    pose proof (offset_in_range _ _ i j Hi Hj) as Hoff.
    destruct (elem_in_range A i j) as (x & Hx & Hex); [lia|].
    exists x. split; [exact Hx|]. unfold op_call. by rewrite Hex.
  - intros A i j v HA Hi Hj. pose proof HA as (_ & _ & _ & _ & Hbuf).
    unfold buffer_matches_shape in Hbuf.
    pose proof (offset_in_range _ _ i j Hi Hj) as Hoff.
    unfold op_call_store. by rewrite elem_store_in_range by lia.
Qed.

Lemma buffer_length_across_operations_witness :
  (exists A', Resize_val (-2) (-3) 0%float A11 = Normal (tt, A') /\
     buffer_matches_shape A' /\ _M A' = -2 /\ _N A' = -3 /\
     _MN A' = -2 * -3) /\
  leaves_well_formed (op_assign A23 B23) /\
  yields_well_formed 2 3 A23 (op_add B23 A23) /\
  yields_well_formed 2 2 A23 (op_mul separately_rounded A32 A23) /\
  leaves_well_formed (Transposed A23) /\
  (exists x, _vals A23 !! Z.to_nat ((2 - 1) * 3 + (1 - 1)) = Some x /\
             op_call 2 1 A23 = Normal (x, A23)).
Proof.
  destruct buffer_length_across_operations
    as (_ & HResize & _ & _ & _ & Hassign & _ & _ & Hop & _ & Hmul & _ &
        HT & Hcall & _).
  assert (well_formed A23) as H23 by wf_concrete.
  assert (well_formed B23) as HB23 by wf_concrete.
  assert (well_formed A32) as H32 by wf_concrete.
  assert (countable A23) as Hc23 by (unfold countable, INT_MAX; simpl; lia).
  assert (countable A32) as Hc32 by (unfold countable, INT_MAX; simpl; lia).
  repeat apply conj.
  - apply HResize; unfold INT_MAX; lia.
  - apply Hassign; [done..|]. right. split; reflexivity.
  - apply (Hop PrimFloat.add _ B23 A23); done.
  - apply (Hmul separately_rounded A32 A23);
      [done..|reflexivity|unfold INT_MAX; simpl; lia].
  - by apply HT.
  - apply (Hcall A23 2 1); [done|simpl; lia..].
Defined.

End MatrixFacts.

(** * Further facts about [NonlinearSolver::Init] *)

Module SolverMore.
Import Solver SolverSpec.

Section WithPetsc.

Variable petsc_returns : list petsc_call -> petsc_call -> PetscErrorCode.

(** The outer method [Init] leaves selected is the one of the branch
    taken: Newton with line search for both [NewtonRaphson] and
    [SNESNewtonLs], trust region, the three quasi-Newton variants,
    nonlinear CG and nonlinear GMRES; for any other solver type no method
    is selected at all. *)
Theorem dispatch_selects_method blk s :
  configured_method (run_Init petsc_returns blk s) =
  branch_method (NonlinearSolverBlock._SolverType blk).
Proof.
  destruct blk as [st mi abstol rtol stol lst order].
  destruct st, lst; vm_compute; reflexivity.
Qed.

(** A line-search tag that is none of the five tested leaves the line
    search of every method as PETSc created it, except under
    [SNESNewtonLs], whose branch sets L2 before it looks at the tag. *)
Theorem unknown_linesearch_tag blk s :
  recognized (NonlinearSolverBlock._SolverType blk) = true ->
  known_linesearch (NonlinearSolverBlock._LineSearchType blk) = false ->
  let w := run_Init petsc_returns blk s in
  configured_linesearch w =
    (if bool_decide (NonlinearSolverBlock._SolverType blk = SNESNewtonLs)
     then Some SNESLINESEARCHL2 else None) /\
  count_LineSearchSetType (calls w) =
    (if bool_decide (NonlinearSolverBlock._SolverType blk = SNESNewtonLs)
     then 1%nat else 0%nat).
Proof.
  intros Hr Hl. destruct blk as [st mi abstol rtol stol lst order].
  destruct st; try discriminate Hr; destruct lst; try discriminate Hl;
    vm_compute; split; reflexivity.
Qed.

(** With the line-search tag among the five, the type is set once, and
    twice under [SNESNewtonLs]. *)
Theorem linesearch_type_set_once blk s :
  recognized (NonlinearSolverBlock._SolverType blk) = true ->
  known_linesearch (NonlinearSolverBlock._LineSearchType blk) = true ->
  count_LineSearchSetType (calls (run_Init petsc_returns blk s)) =
    (if bool_decide (NonlinearSolverBlock._SolverType blk = SNESNewtonLs)
     then 2%nat else 1%nat).
Proof.
  intros Hr Hl. destruct blk as [st mi abstol rtol stol lst order].
  destruct st; try discriminate Hr; destruct lst; try discriminate Hl;
    vm_compute; reflexivity.
Qed.

End WithPetsc.

(** For a recognized solver type nothing of what the solver object held
    before, and nothing of what PETSc returns, shows in the result: the
    calls and the members are the same from any two starting points, and
    no call is made on a handle that this [Init] did not obtain. *)
Theorem recognized_run_ignores_entry_state r r' blk s s' :
  recognized (NonlinearSolverBlock._SolverType blk) = true ->
  run_Init r blk s = run_Init r' blk s' /\
  forallb (fun c => negb (on_stale_handle c)) (calls (run_Init r blk s)) = true.
Proof.
  intros Hr. destruct blk as [st mi abstol rtol stol lst order].
  destruct st; try discriminate Hr; destruct lst; vm_compute; split; reflexivity.
Qed.

(** For any solver type, all members but [_linesearch] end the same from
    any two starting points. *)
Theorem members_overwritten r r' blk s s' :
  set_linesearch (Stale 0) (this (run_Init r blk s)) =
  set_linesearch (Stale 0) (this (run_Init r' blk s')).
Proof.
  destruct blk as [st mi abstol rtol stol lst order].
  destruct st, lst; vm_compute; reflexivity.
Qed.

Lemma unknown_linesearch_tag_witness :
  configured_linesearch
    (run_Init no_error (some_block SNESNewtonLs (OtherLineSearchType 9))
       some_solver) = Some SNESLINESEARCHL2 /\
  count_LineSearchSetType
    (calls (run_Init no_error (some_block SNESNewtonLs (OtherLineSearchType 9))
              some_solver)) = 1%nat.
Proof.
  apply (unknown_linesearch_tag no_error
           (some_block SNESNewtonLs (OtherLineSearchType 9)) some_solver);
    reflexivity.
Defined.

Lemma linesearch_type_set_once_witness :
  count_LineSearchSetType
    (calls (run_Init no_error (some_block SNESLBfgs LineSearchCP) some_solver))
  = 1%nat.
Proof.
  apply (linesearch_type_set_once no_error
           (some_block SNESLBfgs LineSearchCP) some_solver); reflexivity.
Defined.

Lemma recognized_run_ignores_entry_state_witness :
  run_Init no_error (some_block SNESNewtonTr LineSearchDefault) some_solver =
  run_Init (fun _ _ => 1) (some_block SNESNewtonTr LineSearchDefault)
    (set_linesearch (Stale 77) some_solver) /\
  forallb (fun c => negb (on_stale_handle c))
    (calls (run_Init no_error (some_block SNESNewtonTr LineSearchDefault)
              some_solver)) = true.
Proof.
  apply (recognized_run_ignores_entry_state no_error (fun _ _ => 1)
           (some_block SNESNewtonTr LineSearchDefault)); reflexivity.
Defined.

End SolverMore.

(** * Further facts about [MatrixXd] *)

Module MatrixMore.
Import Matrix MatrixSpec MatrixFacts.

(** ** [Resize] and [Clean] *)

(** [Resize] keeps what was in the buffer below the new length and pads
    with the fill value: position [k] of the new buffer holds the old
    element [k] where there was one, and [val] otherwise. *)
Theorem Resize_keeps_prefix_and_pads A m n val :
  0 <= m * n <= INT_MAX ->
  exists A', Resize_val m n val A = Normal (tt, A') /\
    _M A' = m /\ _N A' = n /\ _MN A' = m * n /\
    Z.of_nat (length (_vals A')) = m * n /\
    forall k : nat, Z.of_nat k < m * n ->
      _vals A' !! k = Some (default val (_vals A !! k)).
Proof.
  intros Hmn. rewrite Resize_val_returns by done.
  eexists; split; [reflexivity|]. simpl. repeat (split; [done|]).
  split; [rewrite length_resized; lia|].
  intros k Hk. apply lookup_resized. lia.
Qed.

Lemma Resize_keeps_prefix_and_pads_witness :
  exists A', Resize_val 2 2 7%float A12 = Normal (tt, A') /\
    _M A' = 2 /\ _N A' = 2 /\ _MN A' = 2 * 2 /\
    Z.of_nat (length (_vals A')) = 2 * 2 /\
    forall k : nat, Z.of_nat k < 2 * 2 ->
      _vals A' !! k = Some (default 7%float (_vals A12 !! k)).
Proof.
  apply (Resize_keeps_prefix_and_pads A12 2 2 7%float). unfold INT_MAX. lia.
Defined.

(** After [Clean], a [Resize] does fill the whole matrix with the
    value. *)
Theorem Resize_after_Clean_fills A m n val :
  0 <= m * n <= INT_MAX ->
  exists A1 A2,
    Clean A = Normal (tt, A1) /\
    Resize_val m n val A1 = Normal (tt, A2) /\
    A2 = mkMatrixXd (replicate (Z.to_nat (m * n)) val) m n (m * n).
Proof.
  intros Hmn. eexists _, _. split; [reflexivity|].
  rewrite Resize_val_returns by done. split; [reflexivity|]. simpl.
  by rewrite take_nil, Nat.sub_0_r.
Qed.

Lemma Resize_after_Clean_fills_witness :
  exists A1 A2,
    Clean A23 = Normal (tt, A1) /\
    Resize_val 1 2 7%float A1 = Normal (tt, A2) /\
    A2 = mkMatrixXd (replicate (Z.to_nat (1 * 2)) 7%float) 1 2 (1 * 2).
Proof.
  apply (Resize_after_Clean_fills A23 1 2 7%float). unfold INT_MAX. lia.
Defined.

(** A negative number of elements makes both overloads of [Resize] end
    in [std::length_error]. *)
Theorem Resize_negative_count_throws A m n val :
  INT_MIN <= m * n < 0 ->
  Resize_val m n val A = LengthError /\ Resize m n A = LengthError.
Proof.
  intros Hmn.
  assert (Resize_val m n val A = LengthError /\
          Resize_val m n 0%float A = LengthError) as [H1 H2].
  { unfold Resize_val.
    rewrite int_mul_in_range by (unfold INT_MAX, INT_MIN in *; lia). simpl.
    by rewrite !vector_resize_negative by lia. }
  by rewrite Resize_is_Resize_val_zero.
Qed.

Lemma Resize_negative_count_throws_witness :
  Resize_val (-1) 2 7%float A23 = LengthError /\ Resize (-1) 2 A23 = LengthError.
Proof.
  apply (Resize_negative_count_throws A23 (-1) 2 7%float).
  unfold INT_MIN. lia.
Defined.

(** After [Clean] the dimensions are still reported, but every element
    access, by [(i,j)] or by [[i]], read or write, is outside the buffer. *)
Theorem access_after_Clean_is_undefined A i j x :
  exists A', Clean A = Normal (tt, A') /\
    GetM A' = Normal (_M A, A') /\ GetN A' = Normal (_N A, A') /\
    op_call i j A' = Undefined /\ op_call_store i j x A' = Undefined /\
    op_index i A' = Undefined /\ op_index_store i x A' = Undefined.
Proof.
  eexists; split; [reflexivity|]. split; [done|]. split; [done|].
  unfold op_call, op_call_store, op_index, op_index_store, elem, elem_store.
  simpl. rewrite !vector_get_outside, !vector_set_outside by (simpl; lia).
  done.
Qed.

(** ** Element access *)

Lemma store_then_load_holds m n mn A i j x :
  has_shape m n mn A -> 1 <= i <= m -> 1 <= j <= n ->
  exists A', op_call_store i j x A = Normal (tt, A') /\
    has_shape m n mn A' /\
    op_call i j A' = Normal (x, A') /\
    forall i' j', 1 <= i' <= m -> 1 <= j' <= n -> (i', j') <> (i, j) ->
      elem A' i' j' = elem A i' j'.
Proof.
  intros HA Hi Hj. pose proof HA as (HM & HN & HMN & Hlen).
  assert (forall i' j', 1 <= i' <= m -> 1 <= j' <= n ->
            0 <= offset (_N A) i' j' < Z.of_nat (length (_vals A))) as Hoff.
  { intros i' j' Hi' Hj'. rewrite HN.
    pose proof (offset_in_range m n i' j' Hi' Hj'). lia. }
  pose proof (Hoff i j Hi Hj) as Hij.
  unfold op_call_store. rewrite elem_store_in_range by done. simpl.
  eexists; split; [reflexivity|]. split; [|split].
  - apply set_vals_has_shape; [done|]. by rewrite length_insert.
  - unfold op_call. rewrite elem_offset. simpl.
    rewrite (vector_get_lookup _ _ x); [done|lia|].
    apply list_lookup_insert_eq. lia.
  - intros i' j' Hi' Hj' Hne. rewrite !elem_offset. simpl. unfold vector_get.
    pose proof (Hoff i' j' Hi' Hj') as Hij'.
    rewrite list_lookup_insert_ne; [done|].
    intros Heq. apply Hne.
    destruct (offset_injective (_N A) i j i' j') as [-> ->]; [lia..|done].
Qed.

(** A store through [(i,j)] is read back through [(i,j)], leaves every
    other position of the matrix as it was, and keeps the shape. *)
Theorem store_then_load m n mn A i j x :
  has_shape m n mn A -> 1 <= i <= m -> 1 <= j <= n ->
  exists A', op_call_store i j x A = Normal (tt, A') /\
    has_shape m n mn A' /\
    op_call i j A' = Normal (x, A') /\
    forall i' j', 1 <= i' <= m -> 1 <= j' <= n -> (i', j') <> (i, j) ->
      elem A' i' j' = elem A i' j'.
Proof. apply store_then_load_holds. Qed.

Lemma store_then_load_witness :
  exists A', op_call_store 2 1 9%float A23 = Normal (tt, A') /\
    has_shape 2 3 6 A' /\
    op_call 2 1 A' = Normal (9%float, A') /\
    forall i' j', 1 <= i' <= 2 -> 1 <= j' <= 3 -> (i', j') <> (2, 1) ->
      elem A' i' j' = elem A23 i' j'.
Proof.
  apply (store_then_load 2 3 6 A23 2 1 9%float); [|lia..].
  unfold has_shape. simpl. lia.
Defined.

(** The column index is not checked against [N]: in a row that is not the
    last, column [N+1] is the first element of the next row, for reading
    and for writing, and no error is raised. *)
Theorem column_overrun_is_next_row m n mn A i x :
  has_shape m n mn A -> 1 <= i < m -> 1 <= n ->
  (exists y, op_call i (n + 1) A = Normal (y, A) /\
             op_call (i + 1) 1 A = Normal (y, A)) /\
  exists A', op_call_store i (n + 1) x A = Normal (tt, A') /\
             op_call (i + 1) 1 A' = Normal (x, A').
Proof.
  intros HA Hi Hn. pose proof HA as (HM & HN & HMN & Hlen).
  assert (forall B, _N B = n -> offset (_N B) i (n + 1) = offset (_N B) (i + 1) 1)
    as Hsame by (intros B ->; unfold offset; lia).
  pose proof (offset_in_range m n (i + 1) 1 ltac:(lia) ltac:(lia)) as Hoff.
  split.
  - destruct (elem_in_range A (i + 1) 1) as (y & Hy & Hey); [rewrite HN; lia|].
    exists y. unfold op_call. rewrite Hey.
    by rewrite elem_offset, Hsame, <- elem_offset, Hey.
  - destruct (store_then_load_holds m n mn A (i + 1) 1 x HA)
      as (A' & HA' & _ & Hr & _);
      [lia..|].
    exists A'. split; [|done]. unfold op_call_store in *.
    by rewrite elem_store_offset, Hsame, <- elem_store_offset.
Qed.

Lemma column_overrun_is_next_row_witness :
  (exists y, op_call 1 (3 + 1) A23 = Normal (y, A23) /\
             op_call (1 + 1) 1 A23 = Normal (y, A23)) /\
  exists A', op_call_store 1 (3 + 1) 9%float A23 = Normal (tt, A') /\
             op_call (1 + 1) 1 A' = Normal (9%float, A').
Proof.
  apply (column_overrun_is_next_row 2 3 6 A23 1 9%float); [|lia..].
  unfold has_shape. simpl. lia.
Defined.

(** ** Assignment of a scalar *)

(** [A = val] and [setZero()] overwrite every element and keep the
    shape: afterwards every position of the matrix reads the value. *)
Theorem scalar_assignment_fills m n mn A val :
  has_shape m n mn A ->
  exists A', op_assign_scalar val A = Normal (tt, A') /\
    has_shape m n mn A' /\
    _vals A' = replicate (Z.to_nat (m * n)) val /\
    (forall i j, 1 <= i <= m -> 1 <= j <= n ->
       op_call i j A' = Normal (val, A')) /\
    setZero A = op_assign_scalar 0%float A.
Proof.
  intros HA. pose proof HA as (HM & HN & HMN & Hlen).
  eexists; split; [reflexivity|].
  assert (has_shape m n mn (set_vals (vector_fill (_vals A) val) A)) as HA'.
  { apply set_vals_has_shape; [done|]. unfold vector_fill.
    by rewrite length_replicate. }
  split; [done|]. split; [|split; [|done]].
  - simpl. unfold vector_fill. f_equal. lia.
  - intros i j Hi Hj. pose proof (offset_in_range m n i j Hi Hj) as Hoff.
    unfold op_call. rewrite elem_offset. simpl. rewrite HN.
    rewrite (vector_get_lookup _ _ val); [done|lia|].
    unfold vector_fill. apply lookup_replicate_2. lia.
Qed.

Lemma scalar_assignment_fills_witness :
  exists A', op_assign_scalar 7%float A23 = Normal (tt, A') /\
    has_shape 2 3 6 A' /\
    _vals A' = replicate (Z.to_nat (2 * 3)) 7%float /\
    (forall i j, 1 <= i <= 2 -> 1 <= j <= 3 ->
       op_call i j A' = Normal (7%float, A')) /\
    setZero A23 = op_assign_scalar 0%float A23.
Proof.
  apply (scalar_assignment_fills 2 3 6 A23 7%float).
  unfold has_shape. simpl. lia.
Defined.

(** ** The values the arithmetic operators compute *)

(** The copying loop over a whole buffer returns [r] as soon as its
    right-hand side at step [i] evaluates to element [i] of [r]. *)
Lemma fill_loop_is mn f (r dst : list double) :
  mn = Z.of_nat (length dst) ->
  length r = length dst ->
  (forall (d : list double) i x, 0 <= i < mn ->
     length d = length dst ->
     (forall k : nat, i <= Z.of_nat k -> d !! k = dst !! k) ->
     r !! Z.to_nat i = Some x ->
     f d i = Normal x) ->
  fill_loop mn f dst = Normal r.
Proof.
  intros Hmn Hlen Hf.
  destruct (fill_loop_spec mn f (fun i => default 0%float (r !! Z.to_nat i)) dst)
    as (d' & Hd' & Hlen' & Hdone & _).
  - lia.
  - intros d i Hi Hd Hrest.
    destruct (lookup_lt_is_Some_2 r (Z.to_nat i)) as [x Hx]; [lia|].
    rewrite (Hf d i x Hi Hd Hrest Hx). cbv beta. by rewrite Hx.
  - rewrite Hd'. f_equal. apply list_eq. intros k.
    destruct (decide (k < length dst)%nat) as [Hk|Hk].
    + rewrite Hdone by lia. rewrite Nat2Z.id.
      by destruct (lookup_lt_is_Some_2 r k) as [x ->]; [lia|].
    + rewrite !lookup_ge_None_2; [done|lia|lia].
Qed.

Lemma scalar_loop_values op A val (dst : list double) :
  _MN A = Z.of_nat (length (_vals A)) -> length dst = length (_vals A) ->
  scalar_loop op A val dst = Normal ((fun x => op x val) <$> _vals A).
Proof.
  intros HMN Hlen. unfold scalar_loop.
  apply fill_loop_is; [lia|by rewrite length_fmap|].
  intros d i x Hi _ _. rewrite list_lookup_fmap.
  destruct (vector_get_in_range (_vals A) i) as (y & Hy & ->); [lia|].
  rewrite Hy. by intros [= <-].
Qed.

Lemma scalar_loop_inplace_values op A val :
  _MN A = Z.of_nat (length (_vals A)) ->
  scalar_loop_inplace op A val = Normal ((fun x => op x val) <$> _vals A).
Proof.
  intros HMN. unfold scalar_loop_inplace.
  apply fill_loop_is; [lia|by rewrite length_fmap|].
  intros d i x Hi Hd Hrest. rewrite list_lookup_fmap.
  destruct (vector_get_in_range (_vals A) i) as (y & Hy & _); [lia|].
  rewrite Hy. intros [= <-].
  rewrite (vector_get_lookup d i y); [done|lia|].
  rewrite Hrest by lia. done.
Qed.

Lemma matrix_loop_values op A a (dst : list double) :
  _MN A = Z.of_nat (length (_vals A)) ->
  length (_vals a) = length (_vals A) -> length dst = length (_vals A) ->
  matrix_loop op A a dst = Normal (zip_with op (_vals A) (_vals a)).
Proof.
  intros HMN Hlena Hlen. unfold matrix_loop.
  apply fill_loop_is; [lia|rewrite length_zip_with; lia|].
  intros d i x Hi _ _. rewrite lookup_zip_with.
  destruct (vector_get_in_range (_vals A) i) as (y & Hy & ->); [lia|].
  destruct (vector_get_in_range (_vals a) i) as (z & Hz & ->); [lia|].
  rewrite Hy, Hz. simpl. by intros [= <-].
Qed.

Lemma matrix_loop_inplace_values op A a :
  _MN A = Z.of_nat (length (_vals A)) ->
  length (_vals a) = length (_vals A) ->
  matrix_loop_inplace op A a = Normal (zip_with op (_vals A) (_vals a)).
Proof.
  intros HMN Hlena. unfold matrix_loop_inplace.
  apply fill_loop_is; [lia|rewrite length_zip_with; lia|].
  intros d i x Hi Hd Hrest. rewrite lookup_zip_with.
  destruct (vector_get_in_range (_vals A) i) as (y & Hy & _); [lia|].
  destruct (vector_get_in_range (_vals a) i) as (z & Hz & ->); [lia|].
  rewrite Hy, Hz. simpl. intros [= <-].
  rewrite (vector_get_lookup d i y); [done|lia|].
  rewrite Hrest by lia. done.
Qed.

Lemma scalar_op_value op val A :
  well_formed A ->
  scalar_op op val A =
  Normal (mkMatrixXd ((fun x => op x val) <$> _vals A)
            (_M A) (_N A) (_M A * _N A), A).
Proof.
  intros HA. pose proof HA as (HM & HN & Hmax & HMN & Hbuf).
  unfold buffer_matches_shape in Hbuf. unfold scalar_op, MatrixXd_mn.
  rewrite MatrixXd_mnv_returns by done. simpl.
  rewrite scalar_loop_values; [done|lia|].
  rewrite length_replicate. lia.
Qed.

(** The scalar operators [+], [-], [*] and [/] return the matrix of the
    same shape whose every element is the receiver's element combined
    with the scalar, and leave the receiver as it was. *)
Theorem scalar_op_is_elementwise op val A :
  well_formed A ->
  scalar_op op val A =
  Normal (mkMatrixXd ((fun x => op x val) <$> _vals A)
            (_M A) (_N A) (_M A * _N A), A).
Proof. apply scalar_op_value. Qed.

Lemma scalar_op_is_elementwise_witness :
  op_div_scalar 2%float A12 =
  Normal (mkMatrixXd ((fun x => PrimFloat.div x 2%float) <$> _vals A12)
            (_M A12) (_N A12) (_M A12 * _N A12), A12).
Proof. apply (scalar_op_is_elementwise PrimFloat.div 2%float A12). wf_concrete. Defined.

Lemma matrix_op_value op diag a A :
  well_formed A -> well_formed a -> _M A = _M a -> _N A = _N a ->
  matrix_op op diag a A =
  Normal (mkMatrixXd (zip_with op (_vals A) (_vals a))
            (_M A) (_N A) (_M A * _N A), A).
Proof.
  intros HA Ha HMa HNa. pose proof HA as (HM & HN & Hmax & HMN & Hbuf).
  destruct Ha as (_ & _ & _ & _ & Hbufa).
  unfold buffer_matches_shape in *. unfold matrix_op, MatrixXd_mn.
  rewrite MatrixXd_mnv_returns by done. simpl.
  rewrite same_shape_test by done.
  rewrite matrix_loop_values; [done|lia|lia|].
  rewrite length_replicate. lia.
Qed.

(** [operator+] and [operator-] between two matrices of the same shape
    return the matrix of that shape whose every element combines the two
    elements at the same position, and leave the receiver as it was. *)
Theorem matrix_op_is_elementwise op diag a A :
  well_formed A -> well_formed a -> _M A = _M a -> _N A = _N a ->
  matrix_op op diag a A =
  Normal (mkMatrixXd (zip_with op (_vals A) (_vals a))
            (_M A) (_N A) (_M A * _N A), A).
Proof. apply matrix_op_value. Qed.

Lemma matrix_op_is_elementwise_witness :
  op_sub B23 A23 =
  Normal (mkMatrixXd (zip_with PrimFloat.sub (_vals A23) (_vals B23))
            (_M A23) (_N A23) (_M A23 * _N A23), A23).
Proof.
  apply (matrix_op_is_elementwise PrimFloat.sub _ B23 A23);
    [wf_concrete|wf_concrete|reflexivity|reflexivity].
Defined.

(** The compound assignments leave in the receiver exactly the matrix
    the corresponding operator returns: [A += val] leaves [A + val], and
    [A += B] leaves [A + B] (and so for [-=], [*=], [/=]). *)
Theorem compound_assignment_agrees op diag val a A :
  well_formed A ->
  (exists T, scalar_op op val A = Normal (T, A) /\
             scalar_op_assign op val A = Normal (tt, T)) /\
  (well_formed a -> _M A = _M a -> _N A = _N a ->
   exists T, matrix_op op diag a A = Normal (T, A) /\
             matrix_op_assign op diag a A = Normal (tt, T)).
Proof.
  intros HA. pose proof HA as (HM & HN & Hmax & HMN & Hbuf).
  unfold buffer_matches_shape in Hbuf. split.
  - eexists. split; [by apply scalar_op_value|].
    unfold scalar_op_assign. rewrite scalar_loop_inplace_values by lia.
    simpl. unfold set_vals. by rewrite HMN.
  - intros Ha HMa HNa. eexists. split; [by apply matrix_op_value|].
    pose proof Ha as (_ & _ & _ & _ & Hbufa). unfold buffer_matches_shape in Hbufa.
    unfold matrix_op_assign, MatrixXd_mn.
    rewrite MatrixXd_mnv_returns by done. simpl.
    rewrite same_shape_test by done.
    rewrite matrix_loop_inplace_values by lia.
    simpl. unfold set_vals. by rewrite HMN.
Qed.

Lemma compound_assignment_agrees_witness :
  (exists T, op_mul_scalar 2%float A23 = Normal (T, A23) /\
             op_mul_assign_scalar 2%float A23 = Normal (tt, T)) /\
  (exists T, op_add B23 A23 = Normal (T, A23) /\
             op_add_assign B23 A23 = Normal (tt, T)).
Proof.
  assert (well_formed A23) as HA by wf_concrete.
  split.
  - destruct (compound_assignment_agrees PrimFloat.mul EmptyString 2%float
                B23 A23 HA) as [H _]. exact H.
  - destruct (compound_assignment_agrees PrimFloat.add
                "a+b cant be applied for two matrix with different size"
                0%float B23 A23 HA) as [_ H].
    apply H; [wf_concrete|reflexivity|reflexivity].
Defined.

(** ** Shape errors *)

Lemma shape_test_fails A a :
  ~ (_M A = _M a /\ _N A = _N a) ->
  bool_decide (_M A = _M a) && bool_decide (_N A = _N a) = false.
Proof.
  intros H. apply andb_false_iff.
  destruct (decide (_M A = _M a)); [right|left];
    apply bool_decide_eq_false_2; tauto.
Qed.

(** On well-formed operands whose shapes differ, [+], [-], [+=] and [-=]
    end in the fatal diagnostic of the operator; so does [*] between
    matrices when the columns of the receiver are not the rows of the
    argument.  Nothing is computed and the receiver is not touched. *)
Theorem shape_mismatch_is_fatal op diag muladd a A :
  well_formed A -> well_formed a ->
  (~ (_M A = _M a /\ _N A = _N a) ->
   matrix_op op diag a A = Fatal diag /\
   matrix_op_assign op diag a A = Fatal diag) /\
  (_N A <> _M a -> _M A * _N a <= INT_MAX ->
   op_mul muladd a A =
   Fatal "A*B should be applied for A matrix has the same cols as the rows of B matrix!").
Proof.
  intros HA Ha. pose proof HA as (HM & HN & Hmax & _ & _).
  destruct Ha as (_ & HNa & _ & _ & _). split.
  - intros Hne. unfold matrix_op, matrix_op_assign, MatrixXd_mn.
    rewrite MatrixXd_mnv_returns by done. simpl.
    by rewrite shape_test_fails by done.
  - intros Hne Hmul. unfold op_mul, MatrixXd_mn.
    rewrite MatrixXd_mnv_returns by done. simpl.
    by rewrite bool_decide_eq_true_2 by done.
Qed.

Lemma shape_mismatch_is_fatal_witness :
  (op_add A11 A23 =
     Fatal "a+b cant be applied for two matrix with different size" /\
   op_add_assign A11 A23 =
     Fatal "a+b cant be applied for two matrix with different size") /\
  op_mul separately_rounded A23 A23 =
    Fatal "A*B should be applied for A matrix has the same cols as the rows of B matrix!".
Proof.
  destruct (shape_mismatch_is_fatal PrimFloat.add
              "a+b cant be applied for two matrix with different size"
              separately_rounded A11 A23) as [H1 _]; [wf_concrete|wf_concrete|].
  destruct (shape_mismatch_is_fatal PrimFloat.add EmptyString
              separately_rounded A23 A23)
    as [_ H2]; [wf_concrete|wf_concrete|].
  split.
  - apply H1. simpl. lia.
  - apply H2; [simpl; lia|unfold INT_MAX; simpl; lia].
Defined.

(** ** Assignment *)

(** Assigning a matrix to itself leaves it as it is. *)
Theorem self_assignment A :
  well_formed A -> op_assign A A = Normal (tt, A).
Proof. intros HA. apply op_assign_returns; [done..|]. by right. Qed.

Lemma self_assignment_witness : op_assign A23 A23 = Normal (tt, A23).
Proof. apply (self_assignment A23). wf_concrete. Defined.

Lemma for_lt_first_step_undefined {S : Type} (body : Z -> S -> outcome S)
    lo hi s :
  lo < hi -> body lo s = Undefined -> for_lt lo hi body s = Undefined.
Proof.
  intros Hlt Hb. unfold for_lt.
  replace (Z.to_nat (hi - lo)) with (Datatypes.S (Z.to_nat (hi - lo - 1))) by lia.
  simpl. by rewrite Hb.
Qed.

(** [Clean] leaves a matrix that still reports its dimensions but can no
    longer be used: with at least one element in the shape, assigning
    from it, assigning to it from a matrix of its shape, a scalar
    operator and [Transpose] all run outside the emptied buffer. *)
Theorem cleaned_matrix_is_unusable op val A :
  well_formed A -> 0 < _M A * _N A ->
  exists A', Clean A = Normal (tt, A') /\
    op_assign A' A = Undefined /\
    op_assign A A' = Undefined /\
    scalar_op op val A' = Undefined /\
    scalar_op_assign op val A' = Undefined /\
    Transpose A' = Undefined.
Proof.
  intros HA Hpos. pose proof HA as (HM & HN & Hmax & HMN & Hbuf).
  unfold buffer_matches_shape in Hbuf.
  assert (0 < _M A /\ 0 < _N A) as [HMpos HNpos] by nia.
  eexists; split; [reflexivity|].
  assert (bool_decide (_M A = 0) && bool_decide (_N A = 0) = false) as Hfresh.
  { rewrite bool_decide_eq_false_2 by lia. done. }
  repeat split.
  - unfold op_assign. simpl. rewrite Hfresh.
    rewrite !bool_decide_eq_true_2 by done. simpl.
    unfold fill_loop. rewrite for_lt_first_step_undefined; [done|lia|done].
  - unfold op_assign. simpl. rewrite Hfresh.
    rewrite !bool_decide_eq_true_2 by done. simpl.
    unfold fill_loop. rewrite for_lt_first_step_undefined; [done|lia|].
    destruct (vector_get_in_range (_vals A) 0) as (x & _ & ->); [lia|]. done.
  - unfold scalar_op, MatrixXd_mn. simpl.
    rewrite MatrixXd_mnv_returns by done. simpl.
    unfold scalar_loop, fill_loop. simpl.
    rewrite for_lt_first_step_undefined; [done|lia|done].
  - unfold scalar_op_assign, scalar_loop_inplace, fill_loop. simpl.
    rewrite for_lt_first_step_undefined; [done|lia|done].
  - unfold Transpose, MatrixXd_mn. simpl.
    rewrite MatrixXd_mnv_returns by lia. simpl.
    unfold for_le. rewrite for_lt_first_step_undefined; [done|lia|].
    rewrite for_lt_first_step_undefined; [done|lia|]. done.
Qed.

Lemma cleaned_matrix_is_unusable_witness :
  exists A', Clean A23 = Normal (tt, A') /\
    op_assign A' A23 = Undefined /\
    op_assign A23 A' = Undefined /\
    scalar_op PrimFloat.add 1%float A' = Undefined /\
    scalar_op_assign PrimFloat.add 1%float A' = Undefined /\
    Transpose A' = Undefined.
Proof.
  apply (cleaned_matrix_is_unusable PrimFloat.add 1%float A23);
    [wf_concrete|simpl; lia].
Defined.

(** ** [Transposed] *)

(** Transposing what [Transpose] returned gives the receiver back. *)
Lemma Transpose_involutive A T :
  well_formed A -> countable A ->
  Transpose A = Normal (T, A) -> Transpose T = Normal (A, T).
Proof.
  intros HA HcA HT0. pose proof HA as (HM0 & HN0 & Hmax & HMN & Hbuf).
  unfold buffer_matches_shape in Hbuf.
  destruct (Transpose_returns A HA HcA) as (T' & HT & HTwf & HTM & HTN & HTv).
  rewrite HT0 in HT. injection HT as <-.
  assert (countable T) as HcT
    by (destruct HcA; unfold countable; rewrite HTM, HTN; done).
  destruct (Transpose_returns T HTwf HcT)
    as (A2 & HA2 & HA2wf & HA2M & HA2N & HA2v).
  rewrite HA2. do 2 f_equal.
  rewrite HTM, HTN in *.
  pose proof HA2wf as (_ & _ & _ & HMN2 & Hbuf2).
  unfold buffer_matches_shape in Hbuf2. rewrite HA2M, HA2N in *.
  rewrite <- (well_formed_eta A HA), <- (well_formed_eta A2 HA2wf).
  rewrite HA2M, HA2N. f_equal. apply list_eq. intros k.
  destruct (decide (Z.of_nat k < _M A * _N A)) as [Hk|Hk].
  - destruct (offset_surjective (_M A) (_N A) k) as (i & j & Hi & Hj & Hoff);
      [done..|].
    rewrite <- (Nat2Z.id k), <- Hoff.
    rewrite (HA2v j i Hj Hi). by apply HTv.
  - rewrite !lookup_ge_None_2; [done|lia|lia].
Qed.

(** [Transposed] leaves in the receiver the matrix [Transpose] returns,
    and a second [Transposed] restores the receiver, for a well-formed
    matrix whose dimensions are below [INT_MAX]. *)
Theorem Transposed_twice A :
  well_formed A -> countable A ->
  exists T, Transpose A = Normal (T, A) /\
    Transposed A = Normal (tt, T) /\
    _M T = _N A /\ _N T = _M A /\
    Transposed T = Normal (tt, A).
Proof.
  intros HA HcA.
  destruct (Transposed_returns A HA HcA) as (T & HT & HTd & HTwf).
  destruct (Transpose_returns A HA HcA) as (T' & HT' & _ & HM & HN & _).
  rewrite HT in HT'. injection HT' as <-.
  assert (countable T) as HcT
    by (destruct HcA; unfold countable; rewrite HM, HN; done).
  exists T. repeat (split; [done|]).
  destruct (Transposed_returns T HTwf HcT) as (A2 & HA2 & HA2d & _).
  rewrite (Transpose_involutive A T HA HcA HT) in HA2. injection HA2 as <-.
  done.
Qed.

Lemma Transposed_twice_witness :
  exists T, Transpose A23 = Normal (T, A23) /\
    Transposed A23 = Normal (tt, T) /\
    _M T = _N A23 /\ _N T = _M A23 /\
    Transposed T = Normal (tt, A23).
Proof.
  apply (Transposed_twice A23); [wf_concrete|].
  unfold countable, INT_MAX. simpl. lia.
Defined.

(** ** The matrix product *)

Lemma elem_is_entry m n mn A i j :
  has_shape m n mn A -> 1 <= i <= m -> 1 <= j <= n ->
  elem A i j = Normal (entry A i j).
Proof.
  intros (HM & HN & _ & Hlen) Hi Hj.
  pose proof (offset_in_range m n i j Hi Hj).
  destruct (elem_in_range A i j) as (x & Hx & ->); [rewrite HN; lia|].
  unfold entry. by rewrite Hx.
Qed.

(** A store at a position of the matrix: the shape stays, the position
    holds the value, every other position holds what it held. *)
Lemma elem_store_lookup m n mn T i j x :
  has_shape m n mn T -> 1 <= i <= m -> 1 <= j <= n ->
  exists T', elem_store T i j x = Normal T' /\ has_shape m n mn T' /\
    _vals T' !! Z.to_nat (offset n i j) = Some x /\
    forall i' j', 1 <= i' <= m -> 1 <= j' <= n -> (i', j') <> (i, j) ->
      _vals T' !! Z.to_nat (offset n i' j') =
      _vals T !! Z.to_nat (offset n i' j').
Proof.
  intros HT Hi Hj. pose proof HT as (HM & HN & HMN & Hlen).
  pose proof (offset_in_range m n i j Hi Hj) as Hoff.
  rewrite elem_store_in_range by (rewrite HN; lia). rewrite HN.
  eexists; split; [reflexivity|]. split; [|split].
  - apply set_vals_has_shape; [done|]. by rewrite length_insert.
  - simpl. apply list_lookup_insert_eq. lia.
  - intros i' j' Hi' Hj' Hne. simpl.
    pose proof (offset_in_range m n i' j' Hi' Hj') as Hoff'.
    apply list_lookup_insert_ne. intros Heq. apply Hne.
    destruct (offset_injective n i j i' j') as [-> ->]; [lia..|done].
Qed.

Lemma lookup_is_elem m n mn T i j x :
  has_shape m n mn T -> 1 <= i <= m -> 1 <= j <= n ->
  _vals T !! Z.to_nat (offset n i j) = Some x -> elem T i j = Normal x.
Proof.
  intros (HM & HN & _ & Hlen) Hi Hj Hx.
  pose proof (offset_in_range m n i j Hi Hj).
  rewrite elem_offset, HN. apply vector_get_lookup; [lia|done].
Qed.

Lemma product_position muladd a A i j T :
  well_formed A -> well_formed a -> _M a < INT_MAX -> _N A = _M a ->
  1 <= i <= _M A -> 1 <= j <= _N a ->
  product_upto muladd A a i j T ->
  exists T',
    (temp ← elem_store T i j 0%float;
     for_le 1 (_M a) (fun k temp =>
       t ← elem temp i j;
       x ← elem A i k;
       y ← elem a k j;
       elem_store temp i j (muladd t x y)) temp) = Normal T' /\
    product_upto muladd A a i (j + 1) T'.
Proof.
  intros HA Ha HcMa Hinner Hi Hj [HT Hdone].
  pose proof (well_formed_has_shape A HA) as HsA.
  pose proof (well_formed_has_shape a Ha) as Hsa.
  destruct Ha as (HMa & _).
  destruct (elem_store_lookup _ _ _ T i j 0%float HT Hi Hj)
    as (T0 & -> & HT0 & Hval0 & Hrest0). simpl.
  destruct (for_le_invariant
    (fun k (U : MatrixXd) =>
      has_shape (_M A) (_N a) (_M A * _N a) U /\
      _vals U !! Z.to_nat (offset (_N a) i j) =
        Some (dot_upto muladd A a i j (Z.to_nat (k - 1))) /\
      forall i' j', 1 <= i' <= _M A -> 1 <= j' <= _N a -> (i', j') <> (i, j) ->
        _vals U !! Z.to_nat (offset (_N a) i' j') =
        _vals T !! Z.to_nat (offset (_N a) i' j'))
    (fun k temp =>
       t ← elem temp i j;
       x ← elem A i k;
       y ← elem a k j;
       elem_store temp i j (muladd t x y)) 1 (_M a) T0)
    as (T' & HT' & HU & HUval & HUrest).
  - lia.
  - done.
  - split; [done|]. split; [exact Hval0|exact Hrest0].
  - intros k U Hk (HU & HUval & HUrest).
    rewrite (lookup_is_elem _ _ _ U i j _ HU Hi Hj HUval). simpl.
    rewrite (elem_is_entry _ _ _ A i k HsA Hi) by lia. simpl.
    rewrite (elem_is_entry _ _ _ a k j Hsa Hk Hj). simpl.
    destruct (elem_store_lookup _ _ _ U i j
                (muladd (dot_upto muladd A a i j (Z.to_nat (k - 1)))
                        (entry A i k) (entry a k j)) HU Hi Hj)
      as (U' & -> & HU' & Hval' & Hrest').
    eexists; split; [reflexivity|]. split; [done|]. split.
    + rewrite Hval'. f_equal.
      replace (Z.to_nat (k + 1 - 1)) with (Datatypes.S (Z.to_nat (k - 1))) by lia.
      simpl. replace (Z.of_nat (Datatypes.S (Z.to_nat (k - 1)))) with k by lia.
      done.
    + intros i' j' Hi' Hj' Hne. rewrite Hrest' by done. by apply HUrest.
  - exists T'. split; [done|]. split; [done|].
    intros i' j' Hi' Hj' Hbefore.
    destruct (decide ((i', j') = (i, j))) as [[= -> ->]|Hne].
    + rewrite HUval. do 2 f_equal. lia.
    + rewrite HUrest by done. apply Hdone; [done..|].
      unfold visited_before in *.
      destruct (decide (i' = i)) as [->|]; [|lia].
      right. split; [done|]. assert (j' <> j) by congruence. lia.
Qed.

Lemma op_mul_result muladd a A :
  well_formed A -> well_formed a -> countable A -> countable a ->
  _N A = _M a -> _M A * _N a <= INT_MAX ->
  exists T, op_mul muladd a A = Normal (T, A) /\
            product_upto muladd A a (_M A + 1) 1 T.
Proof.
  intros HA Ha [HcM HcN] [HcMa HcNa] Hinner Hmax.
  pose proof HA as (HM & HN & _). pose proof Ha as (HMa & HNa & _).
  unfold op_mul, MatrixXd_mn. rewrite MatrixXd_mnv_returns by done. simpl.
  rewrite bool_decide_eq_false_2 by (intros H; by apply H).
  destruct (for_le_invariant (fun i T => product_upto muladd A a i 1 T)
    (fun i temp =>
      for_le 1 (_N a) (fun j temp =>
        temp ← elem_store temp i j 0%float;
        for_le 1 (_M a) (fun k temp =>
          t ← elem temp i j;
          x ← elem A i k;
          y ← elem a k j;
          elem_store temp i j (muladd t x y)) temp) temp)
    1 (_M A)
    (mkMatrixXd (replicate (Z.to_nat (_M A * _N a)) 0%float)
       (_M A) (_N a) (_M A * _N a))) as (T & HT & HP).
  - lia.
  - done.
  - split.
    + repeat split. simpl. rewrite length_replicate. nia.
    + intros i' j' Hi' Hj' Hb. unfold visited_before in Hb. lia.
  - intros i U Hi HU.
    destruct (for_le_invariant (fun j T => product_upto muladd A a i j T)
      (fun j temp =>
        temp ← elem_store temp i j 0%float;
        for_le 1 (_M a) (fun k temp =>
          t ← elem temp i j;
          x ← elem A i k;
          y ← elem a k j;
          elem_store temp i j (muladd t x y)) temp) 1 (_N a) U)
      as (U' & HU' & HP'); [lia|done|done| |].
    + intros j V Hj HV. by apply product_position.
    + exists U'. split; [done|]. destruct HP' as [Hs Hd]. split; [done|].
      intros i' j' Hi' Hj' Hb. apply Hd; [done..|].
      unfold visited_before in *. lia.
  - rewrite HT. simpl. by exists T.
Qed.

(** [A*B] on well-formed matrices with dimensions below [INT_MAX] and
    the columns of [A] equal to the rows of [B] returns, leaves [A] as it
    was, and gives the matrix of shape [(A.M,B.N)] whose element [(i,j)]
    is accumulated from 0.0 over [k=1,2,...] by the multiply-add of the
    build: [t := muladd t A(i,k) B(k,j)], whether that rounds the product
    and the sum separately or fuses them. *)
Theorem op_mul_computes_products muladd a A :
  well_formed A -> well_formed a -> countable A -> countable a ->
  _N A = _M a -> _M A * _N a <= INT_MAX ->
  exists T, op_mul muladd a A = Normal (T, A) /\
    well_formed T /\ _M T = _M A /\ _N T = _N a /\
    forall i j, 1 <= i <= _M A -> 1 <= j <= _N a ->
      op_call i j T = Normal (dot_upto muladd A a i j (Z.to_nat (_N A)), T).
Proof.
  intros HA Ha HcA Hca Hinner Hmax.
  destruct (op_mul_result muladd a A HA Ha HcA Hca Hinner Hmax)
    as (T & HT & Hs & Hd).
  pose proof HA as (HM & _). pose proof Ha as (_ & HNa & _).
  exists T. split; [done|]. split; [|split; [|split]].
  - by apply (has_shape_well_formed (_M A) (_N a)).
  - by destruct Hs as (? & _).
  - by destruct Hs as (_ & ? & _).
  - intros i j Hi Hj. unfold op_call.
    rewrite (lookup_is_elem _ _ _ T i j
               (dot_upto muladd A a i j (Z.to_nat (_N A))) Hs Hi Hj); [done|].
    apply Hd; [done..|]. unfold visited_before. lia.
Qed.

Lemma op_mul_computes_products_witness :
  exists T, op_mul separately_rounded A32 A23 = Normal (T, A23) /\
    well_formed T /\ _M T = _M A23 /\ _N T = _N A32 /\
    forall i j, 1 <= i <= _M A23 -> 1 <= j <= _N A32 ->
      op_call i j T =
      Normal (dot_upto separately_rounded A23 A32 i j (Z.to_nat (_N A23)), T).
Proof.
  apply (op_mul_computes_products separately_rounded A32 A23);
    [wf_concrete|wf_concrete
    |unfold countable, INT_MAX; simpl; lia
    |unfold countable, INT_MAX; simpl; lia
    |reflexivity|unfold INT_MAX; simpl; lia].
Defined.

Example dot_upto_A23_A32 :
  dot_upto separately_rounded A23 A32 1 1 3 = 14%float /\
  dot_upto separately_rounded A23 A32 2 1 3 = 32%float.
Proof. split; reflexivity. Qed.

(** ** The way through Eigen *)

Lemma to_Eigen_position A i j E :
  well_formed A -> 1 <= i <= _M A -> 1 <= j <= _N A ->
  copied_upto A i j E ->
  exists E',
    (x ← elem A i j; coeffRef_store E (i - 1) (j - 1) x) = Normal E' /\
    copied_upto A i (j + 1) E'.
Proof.
  intros HA Hi Hj (Hr & Hc & Hco).
  pose proof (well_formed_has_shape A HA) as HsA.
  rewrite (elem_is_entry _ _ _ A i j HsA Hi Hj). simpl.
  unfold coeffRef_store. rewrite !bool_decide_eq_true_2 by lia. simpl.
  eexists; split; [reflexivity|]. split; [done|]. split; [done|].
  intros r c. simpl.
  destruct (decide ((i - 1, j - 1) = (r, c))) as [[= <- <-]|Hne].
  - rewrite lookup_insert_eq.
    rewrite bool_decide_eq_true_2 by (unfold visited_before; lia).
    do 2 f_equal; lia.
  - rewrite lookup_insert_ne by done. rewrite Hco.
    apply (f_equal (fun b : bool =>
             if b then Some (entry A (r + 1) (c + 1)) else None)).
    apply bool_decide_ext. unfold visited_before.
    assert (r + 1 <> i \/ c + 1 <> j) by
      (destruct (decide (r + 1 = i)); [right; intros ?; apply Hne; f_equal; lia
                                      |by left]).
    lia.
Qed.

(** [to_Eigen] hands over an exact copy: coefficient [(r,c)] is element
    [(r+1,c+1)] of the receiver, and there is no other coefficient. *)
Lemma to_Eigen_exact A :
  well_formed A -> countable A ->
  exists E, to_Eigen A (Eigen_MatrixXd (_M A) (_N A)) = Normal E /\
    rows E = _M A /\ cols E = _N A /\
    forall r c,
      coeffs E !! (r, c) =
      if bool_decide (0 <= r < _M A /\ 0 <= c < _N A)
      then Some (entry A (r + 1) (c + 1)) else None.
Proof.
  intros HA [HcM HcN]. pose proof HA as (HM & HN & _).
  unfold to_Eigen.
  destruct (for_le_invariant (fun i E => copied_upto A i 1 E)
    (fun i Mat =>
       for_le 1 (_N A) (fun j Mat =>
         x ← elem A i j; coeffRef_store Mat (i - 1) (j - 1) x) Mat)
    1 (_M A) (Eigen_MatrixXd (_M A) (_N A))) as (E & HE & Hr & Hc & Hco).
  - lia.
  - done.
  - split; [done|]. split; [done|]. intros r c. simpl.
    rewrite lookup_empty.
    rewrite bool_decide_eq_false_2; [done|]. unfold visited_before. lia.
  - intros i F Hi HF.
    destruct (for_le_invariant (fun j E => copied_upto A i j E)
      (fun j Mat => x ← elem A i j; coeffRef_store Mat (i - 1) (j - 1) x)
      1 (_N A) F) as (F' & HF' & Hr' & Hc' & Hco'); [lia|done|done| |].
    + intros j G Hj HG. by apply to_Eigen_position.
    + exists F'. split; [done|]. split; [done|]. split; [done|].
      intros r c. rewrite Hco'.
      apply (f_equal (fun b : bool =>
               if b then Some (entry A (r + 1) (c + 1)) else None)).
      apply bool_decide_ext. unfold visited_before. lia.
  - exists E. split; [done|]. split; [done|]. split; [done|].
    intros r c. rewrite Hco.
    apply (f_equal (fun b : bool =>
             if b then Some (entry A (r + 1) (c + 1)) else None)).
    apply bool_decide_ext. unfold visited_before. lia.
Qed.

Lemma from_Eigen_returns R m n :
  0 <= m < INT_MAX -> 0 <= n < INT_MAX -> m * n <= INT_MAX ->
  (forall r c, 0 <= r < m -> 0 <= c < n -> is_Some (coeffs R !! (r, c))) ->
  forall T0, has_shape m n (m * n) T0 ->
  exists T,
    for_le 1 m (fun i temp =>
      for_le 1 n (fun j temp =>
        x ← coeff R (i - 1) (j - 1); elem_store temp i j x) temp) T0
      = Normal T /\
    filled_upto R m n (m + 1) 1 T.
Proof.
  intros Hm Hn Hmn Htotal T0 HT0.
  apply (for_le_invariant (fun i T => filled_upto R m n i 1 T)); [lia|lia| |].
  - split; [done|]. intros i' j' Hi' Hj' Hb. unfold visited_before in Hb. lia.
  - intros i U Hi HU.
    destruct (for_le_invariant (fun j T => filled_upto R m n i j T)
      (fun j temp => x ← coeff R (i - 1) (j - 1); elem_store temp i j x)
      1 n U) as (U' & HU' & Hs' & Hd'); [lia|lia|done| |].
    + intros j V Hj [HV Hd].
      destruct (Htotal (i - 1) (j - 1)) as [x Hx]; [lia..|].
      unfold coeff. rewrite Hx. simpl.
      destruct (elem_store_lookup _ _ _ V i j x HV Hi Hj)
        as (V' & -> & HV' & Hval & Hrest).
      eexists; split; [reflexivity|]. split; [done|].
      intros i' j' Hi' Hj' Hb.
      destruct (decide ((i', j') = (i, j))) as [[= -> ->]|Hne].
      * by rewrite Hval, Hx.
      * rewrite Hrest by done. apply Hd; [done..|].
        unfold visited_before in *.
        destruct (decide (i' = i)) as [->|]; [|lia].
        right. split; [done|]. assert (j' <> j) by congruence. lia.
    + exists U'. split; [done|]. split; [done|].
      intros i' j' Hi' Hj' Hb. apply Hd'; [done..|].
      unfold visited_before in *. lia.
Qed.

(** [Inverse] on a square well-formed matrix hands Eigen an exact copy of
    the receiver and, when Eigen's [inverse()] answers with a matrix that
    has all its coefficients, returns the matrix of the same shape whose
    element [(i,j)] is coefficient [(i-1,j-1)] of that answer; the receiver
    is left as it was. *)
Theorem Inverse_through_Eigen eigen_inverse A :
  well_formed A -> _M A = _N A ->
  exists E, rows E = _M A /\ cols E = _N A /\
    (forall r c,
       coeffs E !! (r, c) =
       if bool_decide (0 <= r < _M A /\ 0 <= c < _N A)
       then Some (entry A (r + 1) (c + 1)) else None) /\
    forall R,
      eigen_inverse E = Normal R ->
      (forall r c, 0 <= r < _M A -> 0 <= c < _N A ->
         is_Some (coeffs R !! (r, c))) ->
      exists T, Inverse eigen_inverse A = Normal (T, A) /\
        well_formed T /\ _M T = _M A /\ _N T = _N A /\
        forall i j, 1 <= i <= _M A -> 1 <= j <= _N A ->
          elem T i j = coeff R (i - 1) (j - 1).
Proof.
  intros HA Hsq. pose proof HA as (HM & HN & Hmax & _).
  assert (countable A) as HcA.
  { unfold countable. rewrite <- Hsq. rewrite <- Hsq in Hmax.
    unfold INT_MAX in *. nia. }
  destruct (to_Eigen_exact A HA HcA) as (E & HE & Hr & Hc & Hco).
  exists E. repeat (split; [done|]). intros R HR Htotal.
  unfold Inverse. rewrite bool_decide_eq_false_2 by (intros H; by apply H).
  unfold MatrixXd_mn. rewrite MatrixXd_mnv_returns by done. simpl.
  rewrite HE. simpl. rewrite HR. simpl.
  destruct HcA as [HcM HcN].
  destruct (from_Eigen_returns R (_M A) (_N A)
              (conj HM HcM) (conj HN HcN) Hmax Htotal
    (mkMatrixXd (replicate (Z.to_nat (_M A * _N A)) 0%float)
       (_M A) (_N A) (_M A * _N A))) as (T & HT & Hs & Hd).
  { repeat split. simpl. rewrite length_replicate. nia. }
  rewrite HT. simpl. exists T. split; [done|]. split; [|split; [|split]].
  - by apply (has_shape_well_formed (_M A) (_N A)).
  - by destruct Hs as (? & _).
  - by destruct Hs as (_ & ? & _).
  - intros i j Hi Hj.
    destruct (Htotal (i - 1) (j - 1)) as [x Hx]; [lia..|].
    unfold coeff. rewrite Hx.
    apply (lookup_is_elem _ _ _ T i j x Hs Hi Hj).
    rewrite <- Hx. apply Hd; [done..|]. unfold visited_before. lia.
Qed.

Lemma Inverse_through_Eigen_witness :
  exists T, Inverse sample_inverse A22 = Normal (T, A22) /\
    well_formed T /\ _M T = 2 /\ _N T = 2 /\
    forall i j, 1 <= i <= 2 -> 1 <= j <= 2 ->
      elem T i j = Normal (entry A22 i j).
Proof.
  destruct (Inverse_through_Eigen sample_inverse A22)
    as (E & _ & _ & Hco & H); [wf_concrete|reflexivity|].
  destruct (H E) as (T & HT & Hwf & HM & HN & Hel); [reflexivity| |].
  - intros r c Hr Hc. rewrite Hco.
    rewrite bool_decide_eq_true_2 by done. by eexists.
  - exists T. repeat (split; [done|]). intros i j Hi Hj.
    rewrite (Hel i j Hi Hj). unfold coeff. rewrite Hco.
    rewrite bool_decide_eq_true_2 by (unfold A22; simpl; lia).
    by replace (i - 1 + 1) with i by lia; replace (j - 1 + 1) with j by lia.
Defined.

(** [Det] hands Eigen the same exact copy, for a well-formed receiver of
    any shape whose dimensions are below [INT_MAX], and returns what
    Eigen's [determinant()] answers, leaving the receiver as it was. *)
Theorem Det_through_Eigen eigen_determinant A :
  well_formed A -> countable A ->
  exists E, rows E = _M A /\ cols E = _N A /\
    (forall r c,
       coeffs E !! (r, c) =
       if bool_decide (0 <= r < _M A /\ 0 <= c < _N A)
       then Some (entry A (r + 1) (c + 1)) else None) /\
    Det eigen_determinant A = (d ← eigen_determinant E; mret (d, A)).
Proof.
  intros HA HcA.
  destruct (to_Eigen_exact A HA HcA) as (E & HE & Hr & Hc & Hco).
  exists E. repeat (split; [done|]). unfold Det. by rewrite HE.
Qed.

Lemma Det_through_Eigen_witness :
  exists E, rows E = 2 /\ cols E = 3 /\
    (forall r c,
       coeffs E !! (r, c) =
       if bool_decide (0 <= r < 2 /\ 0 <= c < 3)
       then Some (entry A23 (r + 1) (c + 1)) else None) /\
    Det sample_determinant A23 = (d ← sample_determinant E; mret (d, A23)).
Proof.
  apply (Det_through_Eigen sample_determinant A23); [wf_concrete|].
  unfold countable, INT_MAX. simpl. lia.
Defined.

(** ** Loops that reach [INT_MAX] *)

(** On a well-formed matrix with [INT_MAX] rows (it then has at most one
    column) [Transpose] does not return: the counter of the loop over the
    rows would have to pass [INT_MAX]. *)
Theorem Transpose_overflows_at_INT_MAX A :
  well_formed A -> _M A = INT_MAX ->
  returned (Transpose A) = false.
Proof.
  intros HA HM. pose proof HA as (_ & HN & Hmax & _).
  unfold Transpose, MatrixXd_mn.
  rewrite MatrixXd_mnv_returns by (unfold INT_MAX in *; nia).
  change (_ ≫= ?f) with (f (mkMatrixXd
    (replicate (Z.to_nat (_N A * _M A)) 0%float) (_N A) (_M A) (_N A * _M A))).
  cbv beta.
  destruct (for_le 1 (_M A) _ _) as [T'| | |] eqn:Hloop; try done.
  apply for_le_overflows in Hloop; [done| |]; rewrite HM; unfold INT_MAX; lia.
Qed.

Lemma Transpose_overflows_at_INT_MAX_witness :
  returned (Transpose tall_empty) = false.
Proof.
  apply (Transpose_overflows_at_INT_MAX tall_empty); [|reflexivity].
  unfold well_formed, buffer_matches_shape, tall_empty, INT_MAX. simpl. lia.
Defined.

End MatrixMore.
